(** * remirror: helpers unit, method decorators, freeze, collaboration envelope

    A shallow embedding of
    - [packages/@remirror/core/src/extension/extension-types.ts]
      (the chained / unchained command type maps),
    - the builtin [HelpersExtension] (its [onCreate] and [onView] hooks),
    - [packages/@remirror/core/src/builtins/decorators.ts],
    - [@remirror/core-helpers/src/freeze.ts],
    - [@remirror/extension-collaboration/src/collaboration-types.ts].

    JavaScript objects that are only looked up are finite maps ([gmap]);
    objects whose keys are enumerated ([Object.keys], [entries]) are ordered
    property lists.  Function values are represented by their code and the
    environment they capture, and interpreted by [call]. *)

From Stdlib Require Import ZArith Ascii.
From stdpp Require Import base option list strings gmap sets fin_maps.

Local Open Scope string_scope.
Set Warnings "-clear-no-such-hyp".

(** ** Values and ordered objects *)

#[warnings="-register-all"]
Inductive Value :=
| VUndefined
| VNull
| VBool (b : bool)
| VNumber (z : Z)
| VString (s : string)
| VFunction (code : string)
| VObject (props : list (string * Value)).

(** An object whose own keys are enumerated: properties in insertion order.
    (Integer-like keys, which JavaScript enumerates first, do not occur among
    method and helper names.) *)
Definition Obj (V : Type) := list (string * V).

(** A record of plain values ([Shape] of core-types): options, attributes. *)
Abbreviation Shape := (Obj Value).

Module Obj.
Section Ops.
Context {V : Type}.

(** [object()] of core-helpers: an object without properties. *)
Definition object : Obj V := [].

(** [Object.keys(o)]. *)
Definition keys (o : Obj V) : list string := o.*1.

(** [entries(o)]. *)
Definition entries (o : Obj V) : list (string * V) := o.

(** [o[k]]. *)
Fixpoint get (k : string) (o : Obj V) : option V :=
  match o with
  | [] => None
  | (k', v) :: rest => if decide (k = k') then Some v else get k rest
  end.

(** [o[k] = v]: an existing property keeps its place, a new one goes last. *)
Fixpoint set (k : string) (v : V) (o : Obj V) : Obj V :=
  match o with
  | [] => [(k, v)]
  | (k', v') :: rest =>
      if decide (k = k') then (k, v) :: rest else (k', v') :: set k v rest
  end.

(** The object an object literal [{k1: v1, k2: v2, ...}] evaluates to. *)
Definition literal (props : list (string * V)) : Obj V :=
  foldl (fun o p => set p.1 p.2 o) object props.

(** [isEmptyObject(o)] of core-helpers. *)
Definition isEmptyObject (o : Obj V) : bool :=
  match o with [] => true | _ => false end.
End Ops.
End Obj.

(** ** Failures *)

Inductive ErrorConstant :=
| CORE_HELPERS
| MUTATION
| DUPLICATE_COMMAND_NAMES
| DUPLICATE_HELPER_NAMES.

(** The parameter of [throwIfNameNotUnique]. *)
Record IsNameUniqueParameter := isNameUniqueParameter {
  unique_name : string;
  unique_set : gset string;
  unique_code : ErrorConstant;
}.

Inductive Thrown :=
| NameNotUnique (parameter : IsNameUniqueParameter)
| MutationError (prop : string)
| TypeError (property : string).

Inductive Result (A : Type) :=
| Ok (a : A)
| Throw (e : Thrown).
Arguments Ok {A} a.
Arguments Throw {A} e.

(** Statements run in sequence; a throw skips what follows. *)
#[global] Instance Result_ret : MRet Result := @Ok.
#[global] Instance Result_bind : MBind Result := fun A B k r =>
  match r with
  | Ok a => k a
  | Throw e => Throw e
  end.

(** Modelled from the spec: [throwIfNameNotUnique] of [../helpers] is not among
    the sources.  The spec has helper names globally unique, a duplicate
    registration being a failure; the call site hands over a name, the set of
    names seen so far and an error code.  The failure is built from that
    parameter alone, so the thrown value carries the whole parameter; a name
    that is new is recorded in the set. *)
Definition throwIfNameNotUnique (parameter : IsNameUniqueParameter)
  : Result (gset string) :=
  if decide (unique_name parameter ∈ unique_set parameter)
  then Throw (NameNotUnique parameter)
  else Ok ({[unique_name parameter]} ∪ unique_set parameter).

(** ** Extension units *)

Inductive ExtensionKind := PlainKind | MarkKind | NodeKind.

Definition ObjectId := nat.
Definition MethodCode := string.

(** Function values: what code they run and what they captured. *)
Inductive AnyFunction :=
| Arrow (code : string)
    (* a function created elsewhere, e.g. an entry of [createHelpers()] *)
| Bound (method : MethodCode) (this : ObjectId)
    (* [method.bind(this)] *)
| NodeActive (type : string)
    (* [(attrs) => isNodeActive({ state: this.store.getState(), type, attrs })],
       [type] being [extension.type] of the unit it was made for *)
| MarkActive (type : string).
    (* [() => isMarkActive({ trState: this.store.getState(), type })] *)

Record Extension := mkExtension {
  instance : ObjectId;                 (* identity of the unit instance *)
  name : string;
  kind : ExtensionKind;
  type : string;                       (* [extension.type], its schema type *)
  methods : gmap string MethodCode;    (* the methods of the class *)
  createHelpers : option (list (string * AnyFunction));
    (* the properties of the object [createHelpers()] returns, when the unit
       has that method *)
  decoratedHelpers : option (Obj Shape);
  decoratedCommands : option (Obj Shape);
  decoratedKeybindings : option (Obj Shape);
}.

(** Modelled from the spec: [isNodeExtension] and [isMarkExtension] are not
    among the sources; a unit's kind is one of Plain, Mark, Node, told apart by
    a discriminant. *)
Definition isNodeExtension (extension : Extension) : bool :=
  match kind extension with NodeKind => true | _ => false end.

Definition isMarkExtension (extension : Extension) : bool :=
  match kind extension with MarkKind => true | _ => false end.

(** ** The manager store, as the helpers unit uses it *)

Inductive EditorState := editorState (version : nat).

Inductive StringHandler :=
| TextToProsemirrorNode (this : ObjectId)
    (* [this.textToProsemirrorNode.bind(this)] *)
| HtmlToProsemirrorNode
    (* [htmlToProsemirrorNode] of core-utils *)
| OtherHandler (code : string).

Record Store := mkStore {
  extensions : list Extension;
  getState : EditorState;              (* what [getState()] returns now *)
  managerStore : gmap string (gmap string AnyFunction);
  extensionStore : gmap string (gmap string AnyFunction);
  stringHandlers : gmap string StringHandler;
}.

(** Modelled from the spec: the store setters are not among the sources; the
    store keeps string handlers keyed by content-type name, the manager's keys
    and the key-value extension store, each setter writing one key. *)
Definition setStringHandler (key : string) (handler : StringHandler)
  (store : Store) : Store :=
  mkStore (extensions store) (getState store) (managerStore store)
    (extensionStore store) (<[key := handler]> (stringHandlers store)).

Definition setStoreKey (key : string) (value : gmap string AnyFunction)
  (store : Store) : Store :=
  mkStore (extensions store) (getState store)
    (<[key := value]> (managerStore store))
    (extensionStore store) (stringHandlers store).

Definition setExtensionStore (key : string) (value : gmap string AnyFunction)
  (store : Store) : Store :=
  mkStore (extensions store) (getState store) (managerStore store)
    (<[key := value]> (extensionStore store)) (stringHandlers store).

(** ** HelpersExtension *)

Module HelpersExtension.

(** [onCreate]: the two string handlers. *)
Definition onCreate (this : ObjectId) (store : Store) : Store :=
  setStringHandler "html" HtmlToProsemirrorNode
    (setStringHandler "text" (TextToProsemirrorNode this) store).

(** The local variables of [onView]. *)
Record Locals := mkLocals {
  helpers : gmap string AnyFunction;
  active : gmap string AnyFunction;
  names : gset string;
}.

(** [if (isNodeExtension(extension)) { active[extension.name] = ... }]
    [if (isMarkExtension(extension)) { active[extension.name] = ... }] *)
Definition setActive (extension : Extension)
  (active : gmap string AnyFunction) : gmap string AnyFunction :=
  let active :=
    if isNodeExtension extension
    then <[name extension := NodeActive (type extension)]> active
    else active in
  if isMarkExtension extension
  then <[name extension := MarkActive (type extension)]> active
  else active.

(** [for (const helperName of Object.keys(extension.decoratedHelpers ?? {}))]
    [extensionHelpers[helperName] = extension[helperName].bind(extension)];
    reading [bind] off a missing property is a TypeError. *)
Fixpoint bindDecorated (extension : Extension) (helperNames : list string)
  (extensionHelpers : Obj AnyFunction) : Result (Obj AnyFunction) :=
  match helperNames with
  | [] => Ok extensionHelpers
  | helperName :: rest =>
      match methods extension !! helperName with
      | Some method =>
          bindDecorated extension rest
            (Obj.set helperName (Bound method (instance extension))
               extensionHelpers)
      | None => Throw (TypeError helperName)
      end
  end.

(** [extension.createHelpers?.() ?? {}] with the decorated methods bound
    into it. *)
Definition extensionHelpers (extension : Extension)
  : Result (Obj AnyFunction) :=
  bindDecorated extension
    (Obj.keys (default Obj.object (decoratedHelpers extension)))
    (default Obj.object (Obj.literal <$> createHelpers extension)).

(** [for (const [name, helper] of entries(extensionHelpers))]. *)
Fixpoint register (entries : list (string * AnyFunction))
  (names : gset string) (helpers : gmap string AnyFunction)
  : Result (gset string * gmap string AnyFunction) :=
  match entries with
  | [] => Ok (names, helpers)
  | (name, helper) :: rest =>
      names ← throwIfNameNotUnique
                     (isNameUniqueParameter name names DUPLICATE_HELPER_NAMES);
      register rest names (<[name := helper]> helpers)
  end.

(** The body of [for (const extension of this.store.extensions)]. *)
Definition visit (extension : Extension) (locals : Locals) : Result Locals :=
  let active := setActive extension (active locals) in
  extensionHelpers ← extensionHelpers extension;
  if Obj.isEmptyObject extensionHelpers
  then Ok (mkLocals (helpers locals) active (names locals))
  else
    registered ← register (Obj.entries extensionHelpers)
                        (names locals) (helpers locals);
    Ok (mkLocals registered.2 active registered.1).

Fixpoint visitAll (extensions : list Extension) (locals : Locals)
  : Result Locals :=
  match extensions with
  | [] => Ok locals
  | extension :: rest =>
      locals ← visit extension locals;
      visitAll rest locals
  end.

(** [onView]. *)
Definition onView (store : Store) : Result Store :=
  locals ← visitAll (extensions store) (mkLocals ∅ ∅ ∅);
  Ok (setExtensionStore "helpers" (helpers locals)
        (setStoreKey "helpers" (helpers locals)
           (setStoreKey "active" (active locals) store))).

(** [StringHandlerOptions]: the content and the other options, which the
  handlers pass along. *)
Record StringHandlerOptions := mkStringHandlerOptions {
  content : string;
  otherOptions : Shape;
}.

Section Calls.

(** What the document engine and the bodies of functions compute is not part
    of the units' wiring. *)
Variable isNodeActive : EditorState -> string -> option Value -> bool.
Variable isMarkActive : EditorState -> string -> bool.
Variable run : string -> option ObjectId -> Store -> list Value -> Value.
Variable ProsemirrorNode : Type.
Variable htmlToProsemirrorNode : StringHandlerOptions -> ProsemirrorNode.
Variable otherHandler : string -> StringHandlerOptions -> ProsemirrorNode.

(** Calling a function value with the store as it is at the call. *)
Definition call (store : Store) (f : AnyFunction) (args : list Value) : Value :=
  match f with
  | Arrow code => run code None store args
  | Bound method this => run method (Some this) store args
  | NodeActive type => VBool (isNodeActive (getState store) type (head args))
  | MarkActive type => VBool (isMarkActive (getState store) type)
  end.

(** [textToProsemirrorNode]; [callee] calls the handler it finds. *)
Definition textToProsemirrorNode
  (callee : StringHandler -> StringHandlerOptions ->
            option (Result ProsemirrorNode))
  (store : Store) (options : StringHandlerOptions)
  : option (Result ProsemirrorNode) :=
  let content := "<pre>" ++ content options ++ "</pre>" in
  match stringHandlers store !! "html" with
  | Some html => callee html (mkStringHandlerOptions content (otherOptions options))
  | None => Some (Throw (TypeError "html"))
  end.

(** Calling a string handler; [depth] bounds the nesting of calls. *)
Fixpoint callStringHandler (depth : nat) (store : Store)
  (handler : StringHandler) (options : StringHandlerOptions)
  : option (Result ProsemirrorNode) :=
  match depth with
  | 0 => None
  | S depth =>
      match handler with
      | TextToProsemirrorNode _ =>
          textToProsemirrorNode (callStringHandler depth store) store options
      | HtmlToProsemirrorNode => Some (Ok (htmlToProsemirrorNode options))
      | OtherHandler code => Some (Ok (otherHandler code options))
      end
  end.

End Calls.

End HelpersExtension.

(** ** Decorators *)

Record TypedPropertyDescriptor := mkDescriptor {
  value : MethodCode;                  (* the decorated method *)
}.

Module Decorators.

Definition withDecoratedHelpers (target : Extension) (d : option (Obj Shape))
  : Extension :=
  mkExtension (instance target) (name target) (kind target) (type target)
    (methods target) (createHelpers target)
    d (decoratedCommands target) (decoratedKeybindings target).

Definition withDecoratedCommands (target : Extension) (d : option (Obj Shape))
  : Extension :=
  mkExtension (instance target) (name target) (kind target) (type target)
    (methods target) (createHelpers target)
    (decoratedHelpers target) d (decoratedKeybindings target).

Definition withDecoratedKeybindings (target : Extension)
  (d : option (Obj Shape)) : Extension :=
  mkExtension (instance target) (name target) (kind target) (type target)
    (methods target) (createHelpers target)
    (decoratedHelpers target) (decoratedCommands target) d.

(** [helper(options = {})]: an omitted argument is [None]. *)
Definition helper (options : option Shape) (target : Extension)
  (propertyKey : string) (_descriptor : TypedPropertyDescriptor) : Extension :=
  let options := default Obj.object options in
  withDecoratedHelpers target
    (Some (Obj.set propertyKey options
             (default Obj.object (decoratedHelpers target)))).

(** [command(options = {})]. *)
Definition command (options : option Shape) (target : Extension)
  (propertyKey : string) (_descriptor : TypedPropertyDescriptor) : Extension :=
  let options := default Obj.object options in
  if Obj.isEmptyObject options then target
  else
    withDecoratedCommands target
      (Some (Obj.set propertyKey options
               (default Obj.object (decoratedCommands target)))).

(** [keyBinding(options)]. *)
Definition keyBinding (options : Shape) (target : Extension)
  (propertyKey : string) (_descriptor : TypedPropertyDescriptor) : Extension :=
  withDecoratedKeybindings target
    (Some (Obj.set propertyKey options
             (default Obj.object (decoratedKeybindings target)))).

End Decorators.

(** ** freeze *)

Module Freeze.

(** What [freeze] is handed: an object or array, possibly behind the proxy
    whose [set] trap throws. *)
Inductive Target :=
| PlainObject (props : Obj Value)
| FrozenProxy (target : Obj Value).

(** [o[prop] = v]. *)
Definition assign (prop : string) (v : Value) (o : Target) : Result Target :=
  match o with
  | PlainObject props => Ok (PlainObject (Obj.set prop v props))
  | FrozenProxy _ => Throw (MutationError prop)
  end.

(** [freeze]: its first statement is [return target;]. *)
Definition freeze (NODE : option string) (target : Target) : Target :=
  target.

(** The statements of [freeze] after that [return], which never run. *)
Definition freeze_unreachable (NODE : option string) (target : Target)
  : Target :=
  match target with
  | PlainObject props => FrozenProxy props
  | FrozenProxy props => FrozenProxy props
  end.

End Freeze.


(** ** Declared types *)

Module Types.

(** The types the declarations at hand are built from. *)
#[warnings="-register-all"]
Inductive TsType :=
| TNumber
| TString
| TVoid
| TNever
| TAny
| TUnion (a b : TsType)
| TIntersection (a b : TsType)
| TArray (element : TsType)
| TRef (declared : string)             (* a type declared elsewhere *)
| TFunction (parameters : list TsType) (returns : TsType).

(** An interface or mapped type: its members by name. *)
Abbreviation Members := (gmap string TsType).

(** [Omit<T, K>]. *)
Definition Omit (T : Members) (K : gset string) : Members :=
  filter (fun member => member.1 ∉ K) T.

(** [interface I extends Base { own }]. *)
Definition extends (Base own : Members) : Members := own ∪ Base.

(** [A & B]; intersecting with [never] gives [never]. *)
Definition intersect (a b : TsType) : TsType :=
  match a, b with
  | TNever, _ | _, TNever => TNever
  | _, _ => TIntersection a b
  end.

Definition intersection (A B : Members) : Members :=
  union_with (fun a b => Some (intersect a b)) A B.

(** Whether a value of the type can be called. *)
Fixpoint callable (t : TsType) : bool :=
  match t with
  | TFunction _ _ => true
  | TIntersection a b => callable a || callable b
  | _ => false
  end.

(** *** collaboration-types.ts *)

Definition Sendable : Members :=
  {[ "version" := TNumber;
     "steps" := TArray (TRef "Step<EditorSchema>");
     "clientID" := TUnion TNumber TString;
     "origins" := TArray (TRef "Transaction") ]}.

Definition JSONSendable : Members :=
  extends (Omit Sendable {[ "steps"; "origins" ]})
    {[ "steps" := TArray (TRef "PlainObject") ]}.

(** *** extension-types.ts, decorators.ts *)

(** A function type, seen through [Parameters<F>] and [ReturnType<F>]. *)
Record FunctionType := mkFunctionType {
  Parameters : list TsType;
  ReturnType : TsType;
}.

Definition CommandFunction : TsType := TRef "CommandFunction".
Definition NonChainableCommandFunction : TsType :=
  TRef "NonChainableCommandFunction".

(** Modelled from the spec: [NonChainableCommandFunction] of core-types is
    not among the sources.  A command is chainable unless explicitly marked
    non-chainable: the mark tells the two function types apart, and a type
    extends [NonChainableCommandFunction] when it carries it. *)
Definition extendsNonChainable (t : TsType) : bool :=
  match t with
  | TRef declared => String.eqb declared "NonChainableCommandFunction"
  | _ => false
  end.

(** The two overloads of [command]: what a method decorated with the given
    [disableChaining] has to return. *)
Definition commandReturns (disableChaining : option bool) : TsType :=
  match disableChaining with
  | Some true => NonChainableCommandFunction
  | _ => CommandFunction
  end.

(** Modelled from the spec: [CommandShape] of [../types] is not among the
    sources; on the direct surface each command name maps to a function that
    runs the command. *)
Definition CommandShape (parameters : list TsType) : TsType :=
  TFunction parameters TVoid.

(** [MapToUnchainedCommand<RawCommands>]. *)
Definition MapToUnchainedCommand (RawCommands : gmap string FunctionType)
  : Members :=
  (fun Command => CommandShape (Parameters Command)) <$> RawCommands.

(** [MapToChainedCommand<RawCommands>]. *)
Definition MapToChainedCommand (RawCommands : gmap string FunctionType)
  : Members :=
  (fun Command =>
     if extendsNonChainable (ReturnType Command)
     then TVoid
     else TFunction (Parameters Command) TAny) <$> RawCommands.

(** [ChainedCommandRunParameter]. *)
Definition ChainedCommandRunParameter : Members :=
  {[ "run" := TFunction [] TVoid ]}.

(** [ChainedFromExtensions], over the commands of all the units, whose names
    are unique. *)
Definition ChainedFromExtensions (RawCommands : gmap string FunctionType)
  : Members :=
  intersection ChainedCommandRunParameter
    ((fun member =>
        match member with
        | TFunction parameters _ =>
            TFunction parameters (TRef "ChainedFromExtensions")
        | _ => TNever
        end) <$> MapToChainedCommand RawCommands).

End Types.

(** ** Which names a unit contributes *)

(** A unit contributes a helper name through [createHelpers()] or through a
    decorated helper method. *)
Definition contributes (extension : Extension) (helperName : string) : Prop :=
  helperName ∈ (default [] (createHelpers extension)).*1 ∨
  helperName ∈ Obj.keys (default Obj.object (decoratedHelpers extension)).

(** Every decorated helper name is a method of the unit, as it is when the
    map was filled by the [helper] decorator on methods of the class. *)
Definition decoratedAreMethods (extension : Extension) : bool :=
  forallb (fun helperName =>
             bool_decide (is_Some (methods extension !! helperName)))
    (Obj.keys (default Obj.object (decoratedHelpers extension))).

(** [active] after the loop, whatever the helpers are. *)
Definition activeOf (extensions : list Extension)
  (active : gmap string AnyFunction) : gmap string AnyFunction :=
  foldl (fun active extension => HelpersExtension.setActive extension active) active extensions.

(** ** Sample units and stores *)

Module Samples.

(** A plain unit whose [createHelpers()] returns one helper. *)
Definition withCreated (id : ObjectId) (unitName helperName : string)
  : Extension :=
  mkExtension id unitName PlainKind unitName ∅
    (Some [(helperName, Arrow (unitName ++ "." ++ helperName))])
    None None None.

(** A unit with one method decorated as a helper, which its [createHelpers()]
    names as well. *)
Definition both (id : ObjectId) (unitName helperName : string) : Extension :=
  mkExtension id unitName PlainKind unitName
    {[ helperName := unitName ++ "#" ++ helperName ]}
    (Some [(helperName, Arrow (unitName ++ "." ++ helperName))])
    (Some [(helperName, [])]) None None.

(** A mark unit and a node unit without helpers. *)
Definition bold : Extension :=
  mkExtension 7 "bold" MarkKind "bold" ∅ None None None None.

Definition heading : Extension :=
  mkExtension 8 "heading" NodeKind "heading" ∅ None None None None.

(** A unit with nothing decorated yet. *)
Definition code : Extension :=
  mkExtension 9 "code" MarkKind "code"
    {[ "toggleCode" := "code#toggleCode" ]} None None None None.

Definition storeOf (extensions : list Extension) : Store :=
  mkStore extensions (editorState 0) ∅ ∅ ∅.

Definition storeAB : Store :=
  storeOf [withCreated 1 "a" "h"; withCreated 2 "b" "h"].

Definition storeCD : Store :=
  storeOf [withCreated 3 "c" "h"; withCreated 4 "d" "h"].

Definition storeBoth : Store := storeOf [both 5 "u" "h"].

Definition storeMarks : Store := storeOf [bold; heading; both 5 "u" "h"].

(** A document engine in which marks are active from version 1 on, nodes
    never, and function bodies return nothing. *)
Definition isMarkActive (state : EditorState) (type : string) : bool :=
  match state with editorState version => negb (Nat.eqb version 0) end.

Definition isNodeActive (state : EditorState) (type : string)
  (attrs : option Value) : bool := false.

Definition run (code : string) (this : option ObjectId) (store : Store)
  (args : list Value) : Value := VUndefined.

(** The commands of a manager, one of them not chainable. *)
Definition commands : gmap string Types.FunctionType :=
  {[ "toggleBold" := Types.mkFunctionType [] Types.CommandFunction;
     "undo" := Types.mkFunctionType [] Types.NonChainableCommandFunction ]}.

(** What both [storeAB] and [storeCD] make [onView] throw. *)
Definition duplicateH : Thrown :=
  NameNotUnique (isNameUniqueParameter "h" {[ "h" ]} DUPLICATE_HELPER_NAMES).

End Samples.

(** ** Name unions of extension-types.ts *)

(** A union of extension types is the list of the units; a distributive
    conditional type keeps the members that pass its test. *)
Definition GetNameUnion (ExtensionUnion : list Extension) : gset string :=
  list_to_set (name <$> ExtensionUnion).

Definition GetMarkNameUnion (ExtensionUnion : list Extension) : gset string :=
  list_to_set
    (name <$> filter (fun extension => isMarkExtension extension = true)
                ExtensionUnion).

Definition GetNodeNameUnion (ExtensionUnion : list Extension) : gset string :=
  list_to_set
    (name <$> filter (fun extension => isNodeExtension extension = true)
                ExtensionUnion).

(** ** The helpers unit with its decorated methods *)

Module Builtin.

(** The methods of [HelpersExtension] that carry [@helper()], in the order of
    the class body. *)
Definition helperMethods : list string :=
  ["isSelectionEmpty"; "getStateJSON"; "getJSON"; "getRemirrorJSON";
   "getText"; "getHtml"].

Definition methodCode (method : string) : MethodCode :=
  "HelpersExtension#" ++ method.

(** The class as written, before its decorators ran. *)
Definition HelpersClass (id : ObjectId) : Extension :=
  mkExtension id "helpers" PlainKind ""
    (list_to_map
       ((fun method => (method, methodCode method)) <$>
          (["onCreate"; "onView"] ++ helperMethods ++
           ["textToProsemirrorNode"])%list))
    None None None None.

(** The unit: [@helper()] applied to each of the methods. *)
Definition HelpersExtension (id : ObjectId) : Extension :=
  foldl (fun target method =>
           Decorators.helper None target method
             (mkDescriptor (methodCode method)))
    (HelpersClass id) helperMethods.

End Builtin.

(** ** ItalicExtension: the input rules *)

Module ItalicExtension.

(** What [updateCaptured] reads of the captured match. *)
Record Captured := mkCaptured {
  fullMatch : string;
  start : nat;
}.

(** What it returns: the fields to replace, [{}] being none. *)
Record CapturedUpdate := mkCapturedUpdate {
  updatedFullMatch : option string;
  updatedStart : option nat;
}.

(** [s.slice(1)]. *)
Definition slice1 (s : string) : string :=
  match s with
  | EmptyString => EmptyString
  | String _ rest => rest
  end.

(** [updateCaptured] of the rule for [*text*]. *)
Definition updateCapturedStar (captured : Captured) : CapturedUpdate :=
  if negb (String.prefix "*" (fullMatch captured))
  then mkCapturedUpdate (Some (slice1 (fullMatch captured)))
         (Some (start captured + 1))
  else mkCapturedUpdate None None.

(** [updateCaptured] of the rule for [_text_]. *)
Definition updateCapturedUnderscore (captured : Captured) : CapturedUpdate :=
  if negb (String.prefix "_" (fullMatch captured))
  then mkCapturedUpdate (Some (slice1 (fullMatch captured)))
         (Some (start captured + 1))
  else mkCapturedUpdate None None.

(** The texts the whole of [/(?:^|[^d])d([^d]+)d$/] matches, [d] being the
    delimiter: an optional character other than [d], then [d], one or more
    characters other than [d], and [d]. *)
Definition fullMatchOf (d : Ascii.ascii) (s : string) : Prop :=
  ∃ (before : string) (body : string),
    s = before ++ String d (body ++ String d EmptyString) ∧
    (before = EmptyString ∨
     ∃ c, c ≠ d ∧ before = String c EmptyString) ∧
    body ≠ EmptyString ∧
    (∀ c, c ∈ String.list_ascii_of_string body → c ≠ d).

(** The captured match with the returned fields put in. *)
Definition withUpdate (captured : Captured) (update : CapturedUpdate)
  : Captured :=
  mkCaptured (default (fullMatch captured) (updatedFullMatch update))
    (default (start captured) (updatedStart update)).

End ItalicExtension.

(** ** More sample units *)

Module MoreSamples.

(** A unit whose [decoratedHelpers] names a method it does not have. *)
Definition ghost : Extension :=
  mkExtension 11 "ghost" PlainKind "" ∅ None
    (Some [("missing", [])]) None None.

(** [UnderlineExtension]: a mark unit with a keymap and a command, and no
    helper. *)
Definition UnderlineExtension : Extension :=
  mkExtension 12 "underline" MarkKind "underline"
    {[ "createTags" := "UnderlineExtension#createTags";
       "createMarkSpec" := "UnderlineExtension#createMarkSpec";
       "createKeymap" := "UnderlineExtension#createKeymap";
       "createCommands" := "UnderlineExtension#createCommands" ]}
    None None None None.

(** Two units of one name, a mark and a node. *)
Definition markX : Extension :=
  mkExtension 13 "x" MarkKind "xMark" ∅ None None None None.

Definition nodeX : Extension :=
  mkExtension 14 "x" NodeKind "xNode" ∅ None None None None.

Definition storeDistinct : Store :=
  Samples.storeOf
    [Samples.withCreated 1 "a" "h"; Samples.bold; Samples.both 5 "u" "g"].

Definition storePermuted : Store :=
  Samples.storeOf
    [Samples.both 5 "u" "g"; Samples.withCreated 1 "a" "h"; Samples.bold].

End MoreSamples.

(** * Properties *)

(** ** Ordered objects *)

Section ObjFacts.
Context {V : Type}.
Implicit Types (o : Obj V) (k : string) (v : V).

Lemma get_set_eq k v o : Obj.get k (Obj.set k v o) = Some v.
Proof.
  induction o as [|[k' v'] o IH]; simpl.
  - by rewrite decide_True.
  - destruct (decide (k = k')) as [->|Hne]; simpl.
    + by rewrite decide_True.
    + by rewrite decide_False.
Qed.

Lemma get_set_ne k k' v o :
  k ≠ k' → Obj.get k' (Obj.set k v o) = Obj.get k' o.
Proof.
  intros Hne. induction o as [|[k0 v0] o IH]; simpl.
  - by rewrite decide_False.
  - destruct (decide (k = k0)) as [->|Hne0]; simpl.
    + by rewrite !decide_False.
    + destruct (decide (k' = k0)); [done | apply IH].
Qed.

Lemma keys_set k k' v o :
  k' ∈ Obj.keys (Obj.set k v o) ↔ k' = k ∨ k' ∈ Obj.keys o.
Proof.
  unfold Obj.keys. induction o as [|[k0 v0] o IH]; simpl.
  - rewrite list_elem_of_singleton, elem_of_nil. naive_solver.
  - destruct (decide (k = k0)) as [->|Hne]; simpl.
    + rewrite !elem_of_cons. naive_solver.
    + rewrite !elem_of_cons, IH. naive_solver.
Qed.

Lemma NoDup_keys_set k v o :
  NoDup (Obj.keys o) → NoDup (Obj.keys (Obj.set k v o)).
Proof.
  unfold Obj.keys. induction o as [|[k0 v0] o IH]; simpl; intros Hnd.
  - apply NoDup_singleton.
  - apply NoDup_cons in Hnd as [Hnotin Hnd].
    destruct (decide (k = k0)) as [->|Hne]; simpl.
    + by apply NoDup_cons.
    + apply NoDup_cons. split; [|by apply IH].
      intros Hin. apply (keys_set k k0 v o) in Hin. naive_solver.
Qed.

Lemma literal_spec (props : list (string * V)) o :
  NoDup (Obj.keys o) →
  NoDup (Obj.keys (foldl (fun o p => Obj.set p.1 p.2 o) o props)) ∧
  ∀ k, k ∈ Obj.keys (foldl (fun o p => Obj.set p.1 p.2 o) o props)
       ↔ k ∈ props.*1 ∨ k ∈ Obj.keys o.
Proof.
  revert o. induction props as [|[k0 v0] props IH]; simpl; intros o Hnd.
  - split; [done | set_solver].
  - destruct (IH (Obj.set k0 v0 o)) as [Hnd' Hkeys].
    { by apply NoDup_keys_set. }
    split; [done|]. intros k. rewrite Hkeys, keys_set. set_solver.
Qed.

Lemma NoDup_keys_literal (props : list (string * V)) :
  NoDup (Obj.keys (Obj.literal props)).
Proof. apply literal_spec, NoDup_nil_2. Qed.

Lemma keys_literal (props : list (string * V)) k :
  k ∈ Obj.keys (Obj.literal props) ↔ k ∈ props.*1.
Proof.
  unfold Obj.literal.
  destruct (literal_spec props Obj.object) as [_ ->]; [apply NoDup_nil_2|].
  unfold Obj.object, Obj.keys. set_solver.
Qed.

Lemma get_Some_elem_of k v o : Obj.get k o = Some v → (k, v) ∈ o.
Proof.
  induction o as [|[k0 v0] o IH]; simpl; [done|].
  destruct (decide (k = k0)) as [->|Hne]; intros H.
  - injection H as ->. apply list_elem_of_here.
  - apply list_elem_of_further, IH, H.
Qed.

Lemma elem_of_keys k v o : (k, v) ∈ o → k ∈ Obj.keys o.
Proof. intros H. unfold Obj.keys. apply list_elem_of_fmap. by exists (k, v). Qed.

Lemma isEmptyObject_true o : Obj.isEmptyObject o = true → o = [].
Proof. by destruct o. Qed.

End ObjFacts.

(** ** The helper surface *)

Section HelperSurface.
Import HelpersExtension.
Implicit Types (extension : Extension) (locals : Locals)
  (o : Obj AnyFunction) (ns : gset string) (hs : gmap string AnyFunction).

Ltac result_cases H :=
  match type of H with
  | context [mbind _ ?r] =>
      let E := fresh "E" in destruct r eqn:E; simpl in H; try discriminate
  end.

Lemma bindDecorated_Ok extension helperNames o o' :
  bindDecorated extension helperNames o = Ok o' →
  (NoDup (Obj.keys o) → NoDup (Obj.keys o')) ∧
  (∀ k, k ∈ Obj.keys o' ↔ k ∈ helperNames ∨ k ∈ Obj.keys o) ∧
  (∀ k, k ∈ helperNames →
        ∃ method, methods extension !! k = Some method ∧
                  Obj.get k o' = Some (Bound method (instance extension))) ∧
  (∀ k, k ∉ helperNames → Obj.get k o' = Obj.get k o).
Proof.
  revert o. induction helperNames as [|n rest IH]; simpl; intros o H.
  - injection H as <-. split_and!; [done| |intros k Hk|done].
    + intros k. rewrite elem_of_nil. naive_solver.
    + by apply elem_of_nil in Hk.
  - destruct (methods extension !! n) as [method|] eqn:Hm; [|done].
    destruct (IH _ H) as (Hnd & Hkeys & Hbound & Hother).
    split_and!.
    + intros Ho. by apply Hnd, NoDup_keys_set.
    + intros k. rewrite Hkeys, keys_set, elem_of_cons. naive_solver.
    + intros k Hk. destruct (decide (k ∈ rest)) as [Hin|Hnotin].
      { by apply Hbound. }
      apply elem_of_cons in Hk as [->|?]; [|done].
      exists method. split; [done|].
      rewrite Hother by done. apply get_set_eq.
    + intros k Hk. apply not_elem_of_cons in Hk as [Hne Hk].
      rewrite Hother by done. by apply get_set_ne.
Qed.

Lemma bindDecorated_Throw extension helperNames o e :
  bindDecorated extension helperNames o = Throw e →
  ∃ k, e = TypeError k ∧ k ∈ helperNames ∧ methods extension !! k = None.
Proof.
  revert o. induction helperNames as [|n rest IH]; simpl; intros o H; [done|].
  destruct (methods extension !! n) as [method|] eqn:Hm.
  - destruct (IH _ H) as (k & -> & Hk & Hnone).
    exists k. by rewrite elem_of_cons; auto.
  - injection H as <-. exists n. split_and!; [done| |done].
    apply list_elem_of_here.
Qed.

Lemma decoratedAreMethods_spec extension :
  decoratedAreMethods extension = true →
  ∀ k, k ∈ Obj.keys (default Obj.object (decoratedHelpers extension)) →
       is_Some (methods extension !! k).
Proof.
  unfold decoratedAreMethods. rewrite forallb_forall. intros H k Hk.
  apply list_elem_of_In, H in Hk. by apply bool_decide_eq_true in Hk.
Qed.

(** What [extensionHelpers] holds when the decorated names are bound. *)
Lemma extensionHelpers_Ok extension o :
  extensionHelpers extension = Ok o →
  NoDup (Obj.keys o) ∧
  (∀ k, k ∈ Obj.keys o ↔ contributes extension k) ∧
  (∀ k, k ∈ Obj.keys (default Obj.object (decoratedHelpers extension)) →
        ∃ method, methods extension !! k = Some method ∧
                  Obj.get k o = Some (Bound method (instance extension))).
Proof.
  unfold extensionHelpers. intros H.
  apply bindDecorated_Ok in H as (Hnd & Hkeys & Hbound & _).
  split_and!; [|intros k|done].
  - apply Hnd. destruct (createHelpers extension); simpl.
    + apply NoDup_keys_literal.
    + apply NoDup_nil_2.
  - rewrite Hkeys. unfold contributes.
    destruct (createHelpers extension); simpl.
    + rewrite keys_literal. naive_solver.
    + unfold Obj.object, Obj.keys. simpl. naive_solver.
Qed.

Lemma extensionHelpers_total extension :
  decoratedAreMethods extension = true →
  ∃ o, extensionHelpers extension = Ok o.
Proof.
  intros Hwf. destruct (extensionHelpers extension) as [o|e] eqn:H; [eauto|].
  apply bindDecorated_Throw in H as (k & _ & Hk & Hnone).
  apply (decoratedAreMethods_spec _ Hwf) in Hk. rewrite Hnone in Hk.
  by destruct Hk.
Qed.

Lemma register_Ok entries ns hs ns' hs' :
  register entries ns hs = Ok (ns', hs') →
  ns' = list_to_set entries.*1 ∪ ns ∧
  (∀ k, k ∈ entries.*1 → k ∉ ns) ∧
  (∀ k v, (k, v) ∈ entries → hs' !! k = Some v) ∧
  (∀ k, k ∉ entries.*1 → hs' !! k = hs !! k).
Proof.
  revert ns hs. induction entries as [|[n h] rest IH]; simpl; intros ns hs H.
  - injection H as <- <-. split_and!; [set_solver|set_solver| |done].
    intros k v Hin. by apply elem_of_nil in Hin.
  - unfold throwIfNameNotUnique in H. simpl in H.
    destruct (decide (n ∈ ns)) as [|Hfresh]; simpl in H; [done|].
    destruct (IH _ _ H) as (-> & Hdisj & Hin & Hother).
    assert (n ∉ rest.*1) as Hn by (intros Hn; apply Hdisj in Hn; set_solver).
    split_and!.
    + set_solver.
    + intros k Hk. apply elem_of_cons in Hk as [->|Hk]; [done|].
      apply Hdisj in Hk. set_solver.
    + intros k v Hkv. apply elem_of_cons in Hkv as [[= -> ->]|Hkv].
      * rewrite Hother by done. apply lookup_insert_eq.
      * by apply Hin.
    + intros k Hk. apply not_elem_of_cons in Hk as [Hne Hk].
      rewrite Hother by done. by apply lookup_insert_ne.
Qed.

Lemma register_Throw entries ns hs e :
  register entries ns hs = Throw e →
  ∃ k seen, e = NameNotUnique
                  (isNameUniqueParameter k seen DUPLICATE_HELPER_NAMES) ∧
            k ∈ seen ∧ k ∈ entries.*1 ∧
            (NoDup entries.*1 → k ∈ ns).
Proof.
  revert ns hs. induction entries as [|[n h] rest IH]; simpl; intros ns hs H;
    [done|].
  unfold throwIfNameNotUnique in H. simpl in H.
  destruct (decide (n ∈ ns)) as [Hin|Hfresh]; simpl in H.
  - injection H as <-. exists n, ns. split_and!; [done|done| |done].
    apply list_elem_of_here.
  - destruct (IH _ _ H) as (k & seen & -> & Hseen & Hk & Hns).
    exists k, seen. split_and!; [done|done|by apply list_elem_of_further|].
    intros Hnd. apply NoDup_cons in Hnd as [Hn Hnd].
    specialize (Hns Hnd). set_solver.
Qed.

(** One round of the loop over the units. *)
Lemma visit_Ok extension locals locals' :
  visit extension locals = Ok locals' →
  ∃ o, extensionHelpers extension = Ok o ∧
       names locals' = list_to_set (Obj.keys o) ∪ names locals ∧
       (∀ k, k ∈ Obj.keys o → k ∉ names locals) ∧
       (∀ k v, (k, v) ∈ o → helpers locals' !! k = Some v) ∧
       (∀ k, k ∉ Obj.keys o → helpers locals' !! k = helpers locals !! k) ∧
       active locals' = setActive extension (active locals).
Proof.
  unfold visit. intros H. result_cases H. rename a into o. exists o.
  split; [done|].
  destruct (Obj.isEmptyObject o) eqn:Hempty.
  - apply isEmptyObject_true in Hempty as ->. injection H as <-. simpl.
    split_and!; try done.
    + set_solver.
    + intros k Hk. by apply elem_of_nil in Hk.
    + intros k v Hk. by apply elem_of_nil in Hk.
  - result_cases H. destruct a as [ns' hs']. injection H as <-. simpl.
    apply register_Ok in E0 as (-> & Hdisj & Hin & Hother).
    by split_and!.
Qed.

Lemma visit_Throw extension locals e :
  visit extension locals = Throw e →
  (∃ k, e = TypeError k ∧ extensionHelpers extension = Throw e) ∨
  (∃ o k seen, extensionHelpers extension = Ok o ∧
     e = NameNotUnique (isNameUniqueParameter k seen DUPLICATE_HELPER_NAMES) ∧
     k ∈ seen ∧ k ∈ Obj.keys o ∧ k ∈ names locals).
Proof.
  unfold visit. intros H.
  destruct (extensionHelpers extension) as [o|e'] eqn:E; simpl in H.
  - right. destruct (Obj.isEmptyObject o); [done|].
    destruct (register (Obj.entries o) (names locals) (helpers locals))
      as [r|e'] eqn:Er; simpl in H; [done|]. injection H as <-.
    apply register_Throw in Er as (k & seen & -> & Hseen & Hk & Hns).
    exists o, k, seen. split_and!; try done.
    apply Hns. by apply extensionHelpers_Ok in E as (Hnd & _).
  - left. injection H as <-.
    pose proof E as E'. unfold extensionHelpers in E'.
    apply bindDecorated_Throw in E' as (k & -> & _). by exists k.
Qed.

End HelperSurface.

(** ** The loop over the units *)

Section Loop.
Import HelpersExtension.
Implicit Types (extension : Extension) (locals : Locals).

Lemma setActive_other extension (active : gmap string AnyFunction) k :
  k ≠ name extension → setActive extension active !! k = active !! k.
Proof.
  intros Hne. unfold setActive.
  destruct (isNodeExtension extension), (isMarkExtension extension);
    by rewrite ?lookup_insert_ne.
Qed.

Lemma activeOf_other extensions (active : gmap string AnyFunction) k :
  k ∉ name <$> extensions → activeOf extensions active !! k = active !! k.
Proof.
  revert active. induction extensions as [|e rest IH]; simpl; intros active Hk;
    [done|].
  apply not_elem_of_cons in Hk as [Hne Hk].
  unfold activeOf in *. simpl. rewrite IH by done. by apply setActive_other.
Qed.

Lemma activeOf_lookup extensions (active : gmap string AnyFunction) extension :
  NoDup (name <$> extensions) → extension ∈ extensions →
  activeOf extensions active !! name extension =
    match kind extension with
    | MarkKind => Some (MarkActive (type extension))
    | NodeKind => Some (NodeActive (type extension))
    | PlainKind => active !! name extension
    end.
Proof.
  revert active. induction extensions as [|e rest IH]; simpl;
    intros active Hnd Hin.
  { by apply elem_of_nil in Hin. }
  apply NoDup_cons in Hnd as [Hfresh Hnd].
  apply elem_of_cons in Hin as [->|Hin].
  - unfold activeOf. simpl. fold (activeOf rest (setActive e active)).
    rewrite activeOf_other by done.
    unfold setActive, isNodeExtension, isMarkExtension.
    destruct (kind e); by rewrite ?lookup_insert_eq.
  - unfold activeOf. simpl. fold (activeOf rest (setActive e active)).
    rewrite IH by done.
    destruct (kind extension); try done.
    apply setActive_other. intros Heq. apply Hfresh.
    rewrite <- Heq. by apply list_elem_of_fmap_2.
Qed.

Lemma visitAll_Ok extensions locals locals' :
  visitAll extensions locals = Ok locals' →
  names locals ⊆ names locals' ∧
  (∀ k, k ∈ names locals → helpers locals' !! k = helpers locals !! k) ∧
  active locals' = activeOf extensions (active locals) ∧
  (∀ extension, extension ∈ extensions →
     ∃ o, extensionHelpers extension = Ok o ∧
          (∀ k, k ∈ Obj.keys o → (k ∉ names locals) ∧ k ∈ names locals') ∧
          (∀ k v, (k, v) ∈ o → helpers locals' !! k = Some v)).
Proof.
  revert locals. induction extensions as [|e rest IH]; simpl; intros locals H.
  - injection H as <-. split_and!; try done.
    intros extension Hin. by apply elem_of_nil in Hin.
  - destruct (visit e locals) as [locals1|] eqn:Hvisit; simpl in H; [|done].
    apply visit_Ok in Hvisit
      as (o & Ho & Hnames & Hdisj & Hin & Hother & Hactive).
    destruct (IH _ H) as (Hsub & Hkeep & Hact & Hrest).
    assert (names locals ⊆ names locals1) as Hsub1 by set_solver.
    split_and!.
    + set_solver.
    + intros k Hk. rewrite Hkeep by set_solver. apply Hother.
      intros Hko. by apply Hdisj in Hko.
    + by rewrite Hact, Hactive.
    + intros extension Hext. apply elem_of_cons in Hext as [->|Hext].
      * exists o. split_and!; [done| |].
        -- intros k Hk. split; [by apply Hdisj|]. set_solver.
        -- intros k v Hkv. rewrite Hkeep; [by apply Hin|].
           apply elem_of_keys in Hkv. set_solver.
      * destruct (Hrest _ Hext) as (o' & Ho' & Hfresh & Hhelpers).
        exists o'. split_and!; [done| |done].
        intros k Hk. destruct (Hfresh _ Hk). set_solver.
Qed.

(** After a loop that went through, no two units contribute one name. *)
Lemma visitAll_Ok_disjoint extensions locals locals' i j ei ej k :
  visitAll extensions locals = Ok locals' →
  i < j → extensions !! i = Some ei → extensions !! j = Some ej →
  contributes ei k → contributes ej k → False.
Proof.
  revert locals i j. induction extensions as [|e rest IH]; simpl;
    intros locals i j H Hlt Hi Hj Hci Hcj; [done|].
  destruct (visit e locals) as [locals1|] eqn:Hvisit; simpl in H; [|done].
  destruct j as [|j]; [lia|]. simpl in Hj.
  destruct i as [|i]; simpl in Hi.
  - injection Hi as ->.
    apply visit_Ok in Hvisit as (o & Ho & Hnames & _).
    apply visitAll_Ok in H as (_ & _ & _ & Hrest).
    destruct (Hrest ej) as (oj & Hoj & Hfresh & _).
    { by eapply list_elem_of_lookup_2. }
    apply extensionHelpers_Ok in Ho as (_ & Hkeys & _).
    apply extensionHelpers_Ok in Hoj as (_ & Hkeysj & _).
    apply Hkeys in Hci. apply Hkeysj, Hfresh in Hcj as [Hnotin _].
    set_solver.
  - eapply (IH locals1 i j); eauto with lia.
Qed.

(** Where a loop that threw stopped. *)
Lemma visitAll_Throw extensions locals e :
  visitAll extensions locals = Throw e →
  ∃ j ej, extensions !! j = Some ej ∧
    ((∃ k, e = TypeError k ∧ extensionHelpers ej = Throw e) ∨
     (∃ k seen,
        e = NameNotUnique
              (isNameUniqueParameter k seen DUPLICATE_HELPER_NAMES) ∧
        k ∈ seen ∧ contributes ej k ∧
        (k ∈ names locals ∨
         ∃ i ei, i < j ∧ extensions !! i = Some ei ∧ contributes ei k))).
Proof.
  revert locals. induction extensions as [|e0 rest IH]; simpl; intros locals H;
    [done|].
  destruct (visit e0 locals) as [locals1|e'] eqn:Hvisit; simpl in H.
  - destruct (IH _ H) as (j & ej & Hj & Hcases).
    exists (S j), ej. split; [done|].
    destruct Hcases as [?|(k & seen & -> & Hseen & Hcj & Hearlier)];
      [by left|right].
    exists k, seen. split_and!; try done.
    apply visit_Ok in Hvisit as (o & Ho & Hnames & _).
    apply extensionHelpers_Ok in Ho as (_ & Hkeys & _).
    destruct Hearlier as [Hk|(i & ei & Hlt & Hi & Hci)].
    + rewrite Hnames in Hk. apply elem_of_union in Hk as [Hk|Hk]; [|by left].
      right. exists 0, e0. split_and!; [lia|done|].
      apply Hkeys. by apply elem_of_list_to_set in Hk.
    + right. exists (S i), ei. split_and!; [lia|done|done].
  - injection H as <-. exists 0, e0. split; [done|].
    apply visit_Throw in Hvisit
      as [?|(o & k & seen & Ho & -> & Hseen & Hk & Hns)]; [by left|right].
    exists k, seen. split_and!; try done; [|by left].
    apply extensionHelpers_Ok in Ho as (_ & Hkeys & _). by apply Hkeys.
Qed.

End Loop.

(** ** Duplicate helper names *)

Section Duplicates.
Import HelpersExtension.

Lemma onView_Ok store store' :
  onView store = Ok store' →
  ∃ locals, visitAll (extensions store) (mkLocals ∅ ∅ ∅) = Ok locals ∧
    extensions store' = extensions store ∧
    managerStore store' =
      <["helpers" := helpers locals]>
        (<["active" := active locals]> (managerStore store)) ∧
    extensionStore store' =
      <["helpers" := helpers locals]> (extensionStore store).
Proof.
  unfold onView. intros H.
  destruct (visitAll _ _) as [locals|] eqn:E; simpl in H; [|done].
  injection H as <-. by exists locals.
Qed.

Lemma onView_Throw store e :
  onView store = Throw e →
  visitAll (extensions store) (mkLocals ∅ ∅ ∅) = Throw e.
Proof.
  unfold onView. intros H.
  destruct (visitAll _ _) as [locals|e'] eqn:E; simpl in H; [done|].
  by injection H as <-.
Qed.

(** C1, as amended.  When two distinct units of the list contribute a helper
    of the same name (and the decorated helper names are methods of their
    units), [onView] throws the failure of [throwIfNameNotUnique] with the
    code [DUPLICATE_HELPER_NAMES]; the failure names a helper name that is
    already in the set of names seen, and nothing of the units. *)
Theorem onView_duplicate_helper_names store i j ei ej helperName :
  i ≠ j →
  extensions store !! i = Some ei →
  extensions store !! j = Some ej →
  contributes ei helperName →
  contributes ej helperName →
  forallb decoratedAreMethods (extensions store) = true →
  ∃ k seen,
    onView store =
      Throw (NameNotUnique
               (isNameUniqueParameter k seen DUPLICATE_HELPER_NAMES)) ∧
    k ∈ seen.
Proof.
  intros Hne Hi Hj Hci Hcj Hwf.
  destruct (onView store) as [store'|e] eqn:Hview.
  - exfalso. apply onView_Ok in Hview as (locals & Hloop & _).
    destruct (decide (i < j)).
    + by eapply (visitAll_Ok_disjoint _ _ _ i j).
    + eapply (visitAll_Ok_disjoint _ _ _ j i); eauto with lia.
  - apply onView_Throw, visitAll_Throw in Hview as (n & en & Hn & Hcases).
    destruct Hcases as [(k & -> & Hthrow)|(k & seen & -> & Hseen & _)].
    + rewrite forallb_forall in Hwf.
      destruct (extensionHelpers_total en) as [o Ho].
      { apply Hwf, list_elem_of_In. by eapply list_elem_of_lookup_2. }
      congruence.
    + by exists k, seen.
Qed.

Lemma onView_duplicate_helper_names_witness :
  ∃ k seen,
    onView Samples.storeAB =
      Throw (NameNotUnique
               (isNameUniqueParameter k seen DUPLICATE_HELPER_NAMES)) ∧
    k ∈ seen.
Proof.
  apply (onView_duplicate_helper_names Samples.storeAB 0 1
           (Samples.withCreated 1 "a" "h") (Samples.withCreated 2 "b" "h") "h").
  - discriminate.
  - reflexivity.
  - reflexivity.
  - left. simpl. apply list_elem_of_here.
  - left. simpl. apply list_elem_of_here.
  - reflexivity.
Defined.

(** C1, as stated, fails: two lists whose units have different names make
    [onView] throw one and the same value, so the failure tells neither pair
    of unit names. *)
Lemma onView_failure_without_unit_names :
  onView Samples.storeAB = Throw Samples.duplicateH ∧
  onView Samples.storeCD = Throw Samples.duplicateH ∧
  name <$> extensions Samples.storeAB = ["a"; "b"] ∧
  name <$> extensions Samples.storeCD = ["c"; "d"].
Proof. split_and!; vm_compute; reflexivity. Qed.

(** No reading of the thrown value gives back the names of the two units. *)
Lemma no_unit_names_from_failure (identify : Thrown → list string) :
  ¬ ∀ store e, onView store = Throw e →
               identify e = name <$> extensions store.
Proof.
  intros H.
  assert (onView Samples.storeAB = Throw Samples.duplicateH) as HAB
    by (vm_compute; reflexivity).
  assert (onView Samples.storeCD = Throw Samples.duplicateH) as HCD
    by (vm_compute; reflexivity).
  apply H in HAB. apply H in HCD. simpl in HAB, HCD. congruence.
Qed.

End Duplicates.

(** ** Decorated helpers in the helper surface *)

Section Surface.
Import HelpersExtension.

Variable isNodeActive : EditorState → string → option Value → bool.
Variable isMarkActive : EditorState → string → bool.
Variable run : string → option ObjectId → Store → list Value → Value.

(** C9.  When [onView] has assembled the helpers, then for every unit of the
    list and every name in its [decoratedHelpers], the unit has a method of
    that name and the helpers mapping (in the manager store and in the
    extension store) holds, under that name, this method bound to the unit
    instance: calling it runs the method with the unit as [this]. *)
Theorem onView_binds_decorated_helpers store store' extension helperName :
  onView store = Ok store' →
  extension ∈ extensions store →
  helperName ∈ Obj.keys (default Obj.object (decoratedHelpers extension)) →
  ∃ method helpers,
    methods extension !! helperName = Some method ∧
    managerStore store' !! "helpers" = Some helpers ∧
    extensionStore store' !! "helpers" = Some helpers ∧
    helpers !! helperName = Some (Bound method (instance extension)) ∧
    ∀ now args,
      call isNodeActive isMarkActive run now
        (Bound method (instance extension)) args =
      run method (Some (instance extension)) now args.
Proof.
  intros Hview Hin Hdecorated.
  apply onView_Ok in Hview as (locals & Hloop & _ & Hmanager & Hextension).
  apply visitAll_Ok in Hloop as (_ & _ & _ & Hunits).
  destruct (Hunits _ Hin) as (o & Ho & _ & Hhelpers).
  apply extensionHelpers_Ok in Ho as (_ & _ & Hbound).
  destruct (Hbound _ Hdecorated) as (method & Hmethod & Hget).
  exists method, (helpers locals). split_and!; try done.
  - rewrite Hmanager. apply lookup_insert_eq.
  - rewrite Hextension. apply lookup_insert_eq.
  - by apply Hhelpers, get_Some_elem_of.
Qed.

(** C2.  When [onView] has assembled the active mapping of a list of units
    with distinct names, then for every Mark unit the mapping holds under the
    unit's name a predicate that looks at no argument, and for every Node unit
    one that takes the optional attributes; each call gives [isMarkActive] /
    [isNodeActive] of the state the store returns at that call. *)
Theorem onView_active_predicates store store' extension :
  onView store = Ok store' →
  NoDup (name <$> extensions store) →
  extension ∈ extensions store →
  ∃ active,
    managerStore store' !! "active" = Some active ∧
    match kind extension with
    | MarkKind =>
        ∃ f, active !! name extension = Some f ∧
          ∀ now args,
            call isNodeActive isMarkActive run now f args =
            VBool (isMarkActive (getState now) (type extension))
    | NodeKind =>
        ∃ f, active !! name extension = Some f ∧
          ∀ now args,
            call isNodeActive isMarkActive run now f args =
            VBool (isNodeActive (getState now) (type extension) (head args))
    | PlainKind => True
    end.
Proof.
  intros Hview Hnd Hin.
  apply onView_Ok in Hview as (locals & Hloop & _ & Hmanager & _).
  apply visitAll_Ok in Hloop as (_ & _ & Hactive & _). simpl in Hactive.
  exists (active locals). split.
  - rewrite Hmanager, lookup_insert_ne by done. apply lookup_insert_eq.
  - pose proof (activeOf_lookup _ ∅ _ Hnd Hin) as Hlookup.
    rewrite <- Hactive in Hlookup.
    destruct (kind extension); [done| |]; eexists; split; try done.
Qed.

End Surface.

Lemma onView_binds_decorated_helpers_witness :
  ∃ method helpers store',
    HelpersExtension.onView Samples.storeBoth = Ok store' ∧
    methods (Samples.both 5 "u" "h") !! "h" = Some method ∧
    managerStore store' !! "helpers" = Some helpers ∧
    helpers !! "h" = Some (Bound method 5).
Proof.
  destruct (HelpersExtension.onView Samples.storeBoth) as [store'|] eqn:Hview;
    [|vm_compute in Hview; discriminate].
  destruct (onView_binds_decorated_helpers
              Samples.isNodeActive Samples.isMarkActive Samples.run
              Samples.storeBoth store' (Samples.both 5 "u" "h") "h")
    as (method & helpers & Hmethod & Hmanager & _ & Hhelper & _).
  - exact Hview.
  - apply list_elem_of_here.
  - apply list_elem_of_here.
  - exists method, helpers, store'. by split_and!.
Defined.

Lemma onView_active_predicates_witness :
  ∃ store' active f,
    HelpersExtension.onView Samples.storeMarks = Ok store' ∧
    managerStore store' !! "active" = Some active ∧
    active !! "bold" = Some f ∧
    ∀ now args,
      HelpersExtension.call Samples.isNodeActive Samples.isMarkActive
        Samples.run now f args =
      VBool (Samples.isMarkActive (getState now) "bold").
Proof.
  destruct (HelpersExtension.onView Samples.storeMarks) as [store'|] eqn:Hview;
    [|vm_compute in Hview; discriminate].
  destruct (onView_active_predicates
              Samples.isNodeActive Samples.isMarkActive Samples.run
              Samples.storeMarks store' Samples.bold)
    as (active & Hactive & f & Hf & Hcall).
  - exact Hview.
  - vm_compute. repeat constructor; set_solver.
  - apply list_elem_of_here.
  - exists store', active, f. by split_and!.
Defined.

(** ** A decorated and a created helper of one name in one unit *)

Section SameUnit.
Import HelpersExtension.

(** C10.  For a list of one unit whose decorated helper names are its methods:
    a helper name that is both among the entries of its [createHelpers()] and
    in its [decoratedHelpers] raises nothing, and the helpers mapping holds
    the bound method under that name, not the [createHelpers()] entry.  And
    for any list: when [onView] throws for a name that is not unique, two
    units at different places of the list both contribute that name. *)
Theorem onView_same_unit_no_duplicate store :
  (∀ extension helperName,
     extensions store = [extension] →
     decoratedAreMethods extension = true →
     helperName ∈ (default [] (createHelpers extension)).*1 →
     helperName ∈ Obj.keys (default Obj.object (decoratedHelpers extension)) →
     ∃ store' method helpers,
       onView store = Ok store' ∧
       methods extension !! helperName = Some method ∧
       managerStore store' !! "helpers" = Some helpers ∧
       helpers !! helperName = Some (Bound method (instance extension))) ∧
  (∀ parameter,
     onView store = Throw (NameNotUnique parameter) →
     ∃ i j ei ej,
       i < j ∧
       extensions store !! i = Some ei ∧ extensions store !! j = Some ej ∧
       contributes ei (unique_name parameter) ∧
       contributes ej (unique_name parameter)).
Proof.
  split.
  - intros extension helperName Hexts Hwf Hcreated Hdecorated.
    destruct (onView store) as [store'|e] eqn:Hview.
    + pose proof Hview as Hok.
      apply onView_Ok in Hok as (locals & Hloop & _ & Hmanager & _).
      apply visitAll_Ok in Hloop as (_ & _ & _ & Hunits).
      destruct (Hunits extension) as (o & Ho & _ & Hhelpers).
      { rewrite Hexts. apply list_elem_of_here. }
      apply extensionHelpers_Ok in Ho as (_ & _ & Hbound).
      destruct (Hbound _ Hdecorated) as (method & Hmethod & Hget).
      exists store', method, (helpers locals). split_and!; try done.
      * rewrite Hmanager. apply lookup_insert_eq.
      * by apply Hhelpers, get_Some_elem_of.
    + exfalso.
      apply onView_Throw, visitAll_Throw in Hview as (j & ej & Hj & Hcases).
      rewrite Hexts in Hj. destruct j as [|j]; [|done]. injection Hj as <-.
      destruct Hcases as [(k & -> & Hthrow)|(k & seen & -> & _ & _ & Hearlier)].
      * destruct (extensionHelpers_total _ Hwf) as [o Ho]. congruence.
      * destruct Hearlier as [Hk|(i & ei & Hlt & _)]; [|lia].
        simpl in Hk. set_solver.
  - intros parameter Hview.
    apply onView_Throw, visitAll_Throw in Hview as (j & ej & Hj & Hcases).
    destruct Hcases as [(k & [=] & _)|(k & seen & [= ->] & _ & Hcj & Hearlier)].
    destruct Hearlier as [Hk|(i & ei & Hlt & Hi & Hci)].
    + simpl in Hk. set_solver.
    + by exists i, j, ei, ej.
Qed.

Lemma onView_same_unit_no_duplicate_witness :
  (∃ store' method helpers,
     onView Samples.storeBoth = Ok store' ∧
     methods (Samples.both 5 "u" "h") !! "h" = Some method ∧
     managerStore store' !! "helpers" = Some helpers ∧
     helpers !! "h" = Some (Bound method 5)) ∧
  (∃ i j ei ej,
     i < j ∧
     extensions Samples.storeAB !! i = Some ei ∧
     extensions Samples.storeAB !! j = Some ej ∧
     contributes ei "h" ∧ contributes ej "h").
Proof.
  split.
  - apply (proj1 (onView_same_unit_no_duplicate Samples.storeBoth)
             (Samples.both 5 "u" "h") "h").
    + reflexivity.
    + reflexivity.
    + simpl. apply list_elem_of_here.
    + simpl. apply list_elem_of_here.
  - apply (proj2 (onView_same_unit_no_duplicate Samples.storeAB)
             (isNameUniqueParameter "h" {[ "h" ]} DUPLICATE_HELPER_NAMES)).
    vm_compute. reflexivity.
Defined.

End SameUnit.

(** ** When the mappings are installed *)

Section Lifecycle.
Import HelpersExtension.

Lemma onCreate_frame this store :
  extensions (onCreate this store) = extensions store ∧
  getState (onCreate this store) = getState store ∧
  managerStore (onCreate this store) = managerStore store ∧
  extensionStore (onCreate this store) = extensionStore store.
Proof. done. Qed.

(** C5.  [onCreate] leaves the manager store and the extension store as they
    were: on a store that has no [helpers] and no [active] yet, there is none
    after [onCreate] either.  [onView], run after it, installs both (and the
    helpers in the extension store), so that the queries are answered from
    then on. *)
Theorem helpers_and_active_installed_onView this store store' :
  managerStore store !! "helpers" = None →
  managerStore store !! "active" = None →
  extensionStore store !! "helpers" = None →
  onView (onCreate this store) = Ok store' →
  (managerStore (onCreate this store) = managerStore store ∧
   extensionStore (onCreate this store) = extensionStore store ∧
   managerStore (onCreate this store) !! "helpers" = None ∧
   managerStore (onCreate this store) !! "active" = None ∧
   extensionStore (onCreate this store) !! "helpers" = None) ∧
  (is_Some (managerStore store' !! "helpers") ∧
   is_Some (managerStore store' !! "active") ∧
   managerStore store' !! "helpers" = extensionStore store' !! "helpers").
Proof.
  intros Hhelpers Hactive Hextension Hview.
  split; [by split_and!|].
  apply onView_Ok in Hview as (locals & _ & _ & -> & ->).
  rewrite !lookup_insert_eq, lookup_insert_ne, lookup_insert_eq by done.
  by split_and!.
Qed.

Lemma helpers_and_active_installed_onView_witness :
  ∃ store',
    onView (onCreate 0 Samples.storeMarks) = Ok store' ∧
    managerStore (onCreate 0 Samples.storeMarks) !! "helpers" = None ∧
    managerStore (onCreate 0 Samples.storeMarks) !! "active" = None ∧
    is_Some (managerStore store' !! "helpers") ∧
    is_Some (managerStore store' !! "active").
Proof.
  destruct (onView (onCreate 0 Samples.storeMarks)) as [store'|] eqn:Hview;
    [|vm_compute in Hview; discriminate].
  destruct (helpers_and_active_installed_onView 0 Samples.storeMarks store')
    as ((_ & _ & Hh & Ha & _) & Hh' & Ha' & _).
  - reflexivity.
  - reflexivity.
  - reflexivity.
  - exact Hview.
  - by exists store'.
Defined.

End Lifecycle.

(** ** String handlers *)

Section StringHandlers.
Import HelpersExtension.

Variable ProsemirrorNode : Type.
Variable htmlToProsemirrorNode : StringHandlerOptions → ProsemirrorNode.
Variable otherHandler : string → StringHandlerOptions → ProsemirrorNode.

(** C8.  [onCreate] writes the two string handlers ['text'] and ['html'] and
    no other key.  On the store it leaves, the ['text'] handler called with
    any options returns what the registered ['html'] handler returns for the
    same options with the content wrapped as [<pre>content</pre>]. *)
Theorem onCreate_string_handlers this store :
  stringHandlers (onCreate this store) =
    <["html" := HtmlToProsemirrorNode]>
      (<["text" := TextToProsemirrorNode this]> (stringHandlers store)) ∧
  dom (stringHandlers (onCreate this store)) =
    {[ "text"; "html" ]} ∪ dom (stringHandlers store) ∧
  ∀ options depth,
    let wrapped :=
      mkStringHandlerOptions ("<pre>" ++ content options ++ "</pre>")
        (otherOptions options) in
    ∃ text html,
      stringHandlers (onCreate this store) !! "text" = Some text ∧
      stringHandlers (onCreate this store) !! "html" = Some html ∧
      callStringHandler ProsemirrorNode htmlToProsemirrorNode otherHandler
        (S (S depth)) (onCreate this store) text options =
      callStringHandler ProsemirrorNode htmlToProsemirrorNode otherHandler
        (S depth) (onCreate this store) html wrapped ∧
      callStringHandler ProsemirrorNode htmlToProsemirrorNode otherHandler
        (S (S depth)) (onCreate this store) text options =
      Some (Ok (htmlToProsemirrorNode wrapped)).
Proof.
  split_and!.
  - done.
  - unfold onCreate, setStringHandler. simpl. rewrite !dom_insert_L.
    set_solver.
  - intros options depth wrapped.
    exists (TextToProsemirrorNode this), HtmlToProsemirrorNode.
    unfold onCreate, setStringHandler. simpl.
    rewrite lookup_insert_ne, !lookup_insert_eq by done.
    split_and!; try done.
    all: unfold textToProsemirrorNode; simpl; by rewrite lookup_insert_eq.
Qed.

End StringHandlers.

(** ** Decorators *)

Section DecoratorFacts.
Import Decorators.

(** C3.  The code where it parts from the claim: [@command()] and
    [@command({})] on a method of a unit record nothing, the unit is returned
    as it was and [decoratedCommands] has no record under the method name,
    whereas [@helper()] on the same method records the empty options record
    under it. *)
Lemma command_empty_options_attaches_nothing :
  command None Samples.code "toggleCode" (mkDescriptor "code#toggleCode")
    = Samples.code ∧
  command (Some []) Samples.code "toggleCode" (mkDescriptor "code#toggleCode")
    = Samples.code ∧
  decoratedCommands
    (command None Samples.code "toggleCode" (mkDescriptor "code#toggleCode"))
    ≫= Obj.get "toggleCode" = None ∧
  decoratedCommands
    (command (Some []) Samples.code "toggleCode"
       (mkDescriptor "code#toggleCode"))
    ≫= Obj.get "toggleCode" = None ∧
  decoratedHelpers
    (helper None Samples.code "toggleCode" (mkDescriptor "code#toggleCode"))
    ≫= Obj.get "toggleCode" = Some [].
Proof. split_and!; reflexivity. Qed.

(** The decorators as they are written.  [helper] and [keyBinding] attach
    the options record (for [helper] the empty record when none is given)
    under the method name in [decoratedHelpers] / [decoratedKeybindings];
    [command] returns before attaching when the record is empty, and attaches
    it in [decoratedCommands] otherwise.  None of them looks at the
    descriptor, and each leaves the methods and the two other maps as they
    were. *)
Lemma decorators_as_written target propertyKey descriptor :
  (∀ options,
     decoratedHelpers (helper options target propertyKey descriptor)
       ≫= Obj.get propertyKey = Some (default Obj.object options)) ∧
  (∀ options,
     decoratedKeybindings (keyBinding options target propertyKey descriptor)
       ≫= Obj.get propertyKey = Some options) ∧
  (∀ options,
     if Obj.isEmptyObject (default Obj.object options)
     then command options target propertyKey descriptor = target
     else decoratedCommands (command options target propertyKey descriptor)
            ≫= Obj.get propertyKey = Some (default Obj.object options)) ∧
  (∀ options other,
     helper options target propertyKey descriptor =
       helper options target propertyKey other ∧
     command options target propertyKey descriptor =
       command options target propertyKey other) ∧
  (∀ options other,
     keyBinding options target propertyKey descriptor =
       keyBinding options target propertyKey other) ∧
  (∀ options,
     methods (helper options target propertyKey descriptor) = methods target ∧
     methods (command options target propertyKey descriptor) = methods target ∧
     decoratedCommands (helper options target propertyKey descriptor) =
       decoratedCommands target ∧
     decoratedKeybindings (helper options target propertyKey descriptor) =
       decoratedKeybindings target ∧
     decoratedHelpers (command options target propertyKey descriptor) =
       decoratedHelpers target ∧
     decoratedKeybindings (command options target propertyKey descriptor) =
       decoratedKeybindings target) ∧
  (∀ options,
     methods (keyBinding options target propertyKey descriptor) =
       methods target ∧
     decoratedHelpers (keyBinding options target propertyKey descriptor) =
       decoratedHelpers target ∧
     decoratedCommands (keyBinding options target propertyKey descriptor) =
       decoratedCommands target).
Proof.
  split_and!.
  - intros options. simpl. apply get_set_eq.
  - intros options. simpl. apply get_set_eq.
  - intros options. unfold command.
    destruct (Obj.isEmptyObject (default Obj.object options)); [done|].
    simpl. apply get_set_eq.
  - done.
  - done.
  - intros options. unfold command.
    by destruct (Obj.isEmptyObject (default Obj.object options)).
  - done.
Qed.

End DecoratorFacts.

(** ** freeze *)

Section FreezeFacts.
Import Freeze.

(** C4, as stated, fails: in production, assigning to a property of what
    [freeze] returned changes the object and raises nothing. *)
Lemma assign_after_freeze_succeeds :
  assign "a" (VNumber 2)
    (freeze (Some "production") (PlainObject [("a", VNumber 1)]))
  = Ok (PlainObject [("a", VNumber 2)]).
Proof. reflexivity. Qed.

(** C4, as amended.  In a production environment [freeze] hands back the
    value it was given, so that an assignment to a property of the returned
    value does what it does on the original: on an object, it sets the
    property. *)
Theorem freeze_production_returns_target target :
  freeze (Some "production") target = target ∧
  (∀ prop v,
     assign prop v (freeze (Some "production") target) = assign prop v target) ∧
  (∀ props prop v,
     assign prop v (freeze (Some "production") (PlainObject props)) =
     Ok (PlainObject (Obj.set prop v props))).
Proof. by split_and!. Qed.

(** The proxy of the statements that never run would refuse the write. *)
Lemma assign_unreachable_proxy NODE target prop v :
  assign prop v (freeze_unreachable NODE target) = Throw (MutationError prop).
Proof. by destruct target. Qed.

End FreezeFacts.

(** ** Declared types *)

Section TypeFacts.
Import Types.

(** C6, as stated, fails: the JSON-safe envelope has no [origins]. *)
Lemma JSONSendable_without_origins :
  JSONSendable !! "origins" = None ∧
  Sendable !! "origins" = Some (TArray (TRef "Transaction")).
Proof. split; vm_compute; reflexivity. Qed.

(** C6, as amended.  [JSONSendable] has the members [version] and
    [clientID] of [Sendable] with their types, [steps] as an array of plain
    objects, and nothing else: [origins] is left out. *)
Theorem JSONSendable_members :
  JSONSendable !! "version" = Sendable !! "version" ∧
  JSONSendable !! "clientID" = Sendable !! "clientID" ∧
  JSONSendable !! "steps" = Some (TArray (TRef "PlainObject")) ∧
  JSONSendable !! "origins" = None ∧
  dom JSONSendable = {[ "version"; "clientID"; "steps" ]} ∧
  dom Sendable = {[ "version"; "clientID"; "steps"; "origins" ]}.
Proof. split_and!; vm_compute; reflexivity. Qed.

Lemma intersect_never_r a : intersect a TNever = TNever.
Proof. by destruct a. Qed.

(** C7.  For every command whose function returns a non-chainable command
    function (what [command] asks of a method decorated with
    [disableChaining: true]): [MapToChainedCommand] gives the name the member
    [void], the chain surface [ChainedFromExtensions] gives it [never],
    neither of which can be called, and [MapToUnchainedCommand] gives it a
    callable member. *)
Theorem non_chainable_not_on_chain
  (RawCommands : gmap string FunctionType) Command F :
  RawCommands !! Command = Some F →
  ReturnType F = commandReturns (Some true) →
  MapToChainedCommand RawCommands !! Command = Some TVoid ∧
  callable TVoid = false ∧
  ChainedFromExtensions RawCommands !! Command = Some TNever ∧
  callable TNever = false ∧
  MapToUnchainedCommand RawCommands !! Command =
    Some (CommandShape (Parameters F)) ∧
  callable (CommandShape (Parameters F)) = true.
Proof.
  intros HF Hreturns.
  assert (MapToChainedCommand RawCommands !! Command = Some TVoid) as Hchained.
  { unfold MapToChainedCommand. rewrite lookup_fmap, HF. simpl.
    by rewrite Hreturns. }
  split_and!; try done.
  - unfold ChainedFromExtensions, intersection.
    rewrite lookup_union_with, lookup_fmap, Hchained. simpl.
    destruct (ChainedCommandRunParameter !! Command) as [run|]; simpl; [|done].
    by rewrite intersect_never_r.
  - unfold MapToUnchainedCommand. by rewrite lookup_fmap, HF.
Qed.

(** A command that returns a plain command function stays callable on the
    chain. *)
Lemma chainable_on_chain (RawCommands : gmap string FunctionType) Command F :
  RawCommands !! Command = Some F →
  ReturnType F = commandReturns None →
  MapToChainedCommand RawCommands !! Command =
    Some (TFunction (Parameters F) TAny).
Proof.
  intros HF Hreturns. unfold MapToChainedCommand.
  rewrite lookup_fmap, HF. simpl. by rewrite Hreturns.
Qed.

Lemma non_chainable_not_on_chain_witness :
  ChainedFromExtensions Samples.commands !! "undo" = Some TNever ∧
  MapToUnchainedCommand Samples.commands !! "undo" = Some (CommandShape []).
Proof.
  destruct (non_chainable_not_on_chain Samples.commands "undo"
              (mkFunctionType [] NonChainableCommandFunction))
    as (_ & _ & Hchain & _ & Hdirect & _).
  - vm_compute. reflexivity.
  - reflexivity.
  - by split.
Defined.

End TypeFacts.

(** * Further properties of the helper surface *)

Section SurfaceCharacterised.
Import HelpersExtension.
Implicit Types (extension : Extension) (locals : Locals)
  (o : Obj AnyFunction).

Lemma elem_of_keys_inv o k : k ∈ Obj.keys o → ∃ v, (k, v) ∈ o.
Proof.
  unfold Obj.keys. intros Hk. apply list_elem_of_fmap in Hk as ([k' v] & -> & Hin).
  by exists v.
Qed.

Lemma NoDup_keys_elem_of o k v v' :
  NoDup (Obj.keys o) → (k, v) ∈ o → (k, v') ∈ o → v = v'.
Proof.
  unfold Obj.keys. induction o as [|[k0 v0] o IH]; simpl; intros Hnd Hv Hv'.
  { by apply elem_of_nil in Hv. }
  apply NoDup_cons in Hnd as [Hfresh Hnd].
  apply elem_of_cons in Hv as [[= -> ->]|Hv];
    apply elem_of_cons in Hv' as [[= ->]|Hv']; try done.
  - destruct Hfresh. by apply (elem_of_keys k0 v' o).
  - destruct Hfresh. by apply (elem_of_keys k0 v o).
  - by apply IH.
Qed.

(** An entry of [createHelpers()] that is not decorated stays as it is. *)
Lemma extensionHelpers_created extension o k :
  extensionHelpers extension = Ok o →
  k ∉ Obj.keys (default Obj.object (decoratedHelpers extension)) →
  Obj.get k o =
    Obj.get k (default Obj.object (Obj.literal <$> createHelpers extension)).
Proof.
  unfold extensionHelpers. intros H Hk.
  apply bindDecorated_Ok in H as (_ & _ & _ & Hother). by apply Hother.
Qed.

Lemma extensionHelpers_Ok_methods extension o :
  extensionHelpers extension = Ok o → decoratedAreMethods extension = true.
Proof.
  intros H. unfold decoratedAreMethods. apply forallb_forall. intros k Hk.
  apply list_elem_of_In in Hk. apply bool_decide_eq_true.
  apply extensionHelpers_Ok in H as (_ & _ & Hbound).
  destruct (Hbound _ Hk) as (method & -> & _). by eexists.
Qed.

(** Where an entry of the helpers after the loop comes from. *)
Lemma visitAll_Ok_source extensions locals locals' k v :
  visitAll extensions locals = Ok locals' →
  helpers locals' !! k = Some v →
  helpers locals !! k = Some v ∨
  ∃ extension o, extension ∈ extensions ∧
                 extensionHelpers extension = Ok o ∧ (k, v) ∈ o.
Proof.
  revert locals. induction extensions as [|e rest IH]; simpl; intros locals H Hk.
  - injection H as <-. by left.
  - destruct (visit e locals) as [locals1|] eqn:Hvisit; simpl in H; [|done].
    destruct (IH _ H Hk) as [Hk1|(e' & o' & Hin & Ho' & Hkv)].
    + apply visit_Ok in Hvisit as (o & Ho & _ & _ & Hentries & Hother & _).
      destruct (decide (k ∈ Obj.keys o)) as [Hko|Hko].
      * right. exists e, o. split_and!; [apply list_elem_of_here|done|].
        destruct (elem_of_keys_inv _ _ Hko) as [v' Hv'].
        pose proof (Hentries _ _ Hv') as Hlookup.
        rewrite Hk1 in Hlookup. by injection Hlookup as ->.
      * left. by rewrite <- Hother.
    + right. exists e', o'. split_and!; [by apply list_elem_of_further|done|done].
Qed.

(** X1.  A list of units whose decorated helper names are methods and in
    which no two units contribute a helper of one name goes through
    [onView]. *)
Theorem onView_succeeds_when_names_distinct store :
  forallb decoratedAreMethods (extensions store) = true →
  (∀ i j ei ej k,
     i < j →
     extensions store !! i = Some ei → extensions store !! j = Some ej →
     contributes ei k → contributes ej k → False) →
  ∃ store', onView store = Ok store'.
Proof.
  intros Hwf Hdistinct.
  destruct (onView store) as [store'|e] eqn:Hview; [by exists store'|].
  exfalso.
  apply onView_Throw, visitAll_Throw in Hview as (j & ej & Hj & Hcases).
  destruct Hcases as [(k & -> & Hthrow)|(k & seen & -> & _ & Hcj & Hearlier)].
  - rewrite forallb_forall in Hwf.
    destruct (extensionHelpers_total ej) as [o Ho]; [|congruence].
    apply Hwf, list_elem_of_In. by eapply list_elem_of_lookup_2.
  - destruct Hearlier as [Hk|(i & ei & Hlt & Hi & Hci)].
    + simpl in Hk. set_solver.
    + by eapply (Hdistinct i j).
Qed.

Lemma onView_succeeds_when_names_distinct_witness :
  ∃ store', onView MoreSamples.storeDistinct = Ok store'.
Proof.
  apply onView_succeeds_when_names_distinct.
  - reflexivity.
  - intros i j ei ej k Hlt Hi Hj Hci Hcj.
    destruct j as [|[|[|j]]]; [lia| | |done];
      destruct i as [|[|i]]; try lia;
      simpl in Hi, Hj; injection Hi as <-; injection Hj as <-;
      unfold contributes in Hci, Hcj; simpl in Hci, Hcj; set_solver.
Defined.

(** X2.  After [onView] the helpers mapping has an entry under a name
    exactly when a unit of the list contributes that name. *)
Theorem onView_helpers_exactly_contributed store store' :
  onView store = Ok store' →
  ∃ helpers,
    managerStore store' !! "helpers" = Some helpers ∧
    ∀ k, is_Some (helpers !! k) ↔
         ∃ extension, extension ∈ extensions store ∧ contributes extension k.
Proof.
  intros Hview.
  apply onView_Ok in Hview as (locals & Hloop & _ & Hmanager & _).
  exists (helpers locals). split.
  { rewrite Hmanager. apply lookup_insert_eq. }
  intros k. split.
  - intros [v Hv].
    destruct (visitAll_Ok_source _ _ _ _ _ Hloop Hv)
      as [Hempty|(e & o & Hin & Ho & Hkv)]; [done|].
    exists e. split; [done|].
    apply extensionHelpers_Ok in Ho as (_ & Hkeys & _).
    by apply Hkeys, (elem_of_keys k v).
  - intros (e & Hin & Hc).
    apply visitAll_Ok in Hloop as (_ & _ & _ & Hunits).
    destruct (Hunits _ Hin) as (o & Ho & _ & Hhelpers).
    apply extensionHelpers_Ok in Ho as (_ & Hkeys & _).
    apply Hkeys in Hc. destruct (elem_of_keys_inv _ _ Hc) as [v Hv].
    exists v. by apply Hhelpers.
Qed.

Lemma onView_helpers_exactly_contributed_witness :
  ∃ store' helpers,
    onView MoreSamples.storeDistinct = Ok store' ∧
    managerStore store' !! "helpers" = Some helpers ∧
    ∀ k, is_Some (helpers !! k) ↔
         ∃ extension,
           extension ∈ extensions MoreSamples.storeDistinct ∧
           contributes extension k.
Proof.
  destruct (onView MoreSamples.storeDistinct) as [store'|] eqn:Hview;
    [|vm_compute in Hview; discriminate].
  destruct (onView_helpers_exactly_contributed _ _ Hview) as (helpers & H1 & H2).
  by exists store', helpers.
Defined.

(** X3.  After [onView], a property of the object a unit's [createHelpers()]
    returns, whose name is not among the unit's decorated helpers, is in the
    helpers mapping under its name, as it was returned. *)
Theorem onView_registers_created_helpers
  store store' extension props k v :
  onView store = Ok store' →
  extension ∈ extensions store →
  createHelpers extension = Some props →
  Obj.get k (Obj.literal props) = Some v →
  k ∉ Obj.keys (default Obj.object (decoratedHelpers extension)) →
  ∃ helpers,
    managerStore store' !! "helpers" = Some helpers ∧
    extensionStore store' !! "helpers" = Some helpers ∧
    helpers !! k = Some v.
Proof.
  intros Hview Hin Hcreate Hget Hk.
  apply onView_Ok in Hview as (locals & Hloop & _ & Hmanager & Hextension).
  exists (helpers locals). split_and!.
  - rewrite Hmanager. apply lookup_insert_eq.
  - rewrite Hextension. apply lookup_insert_eq.
  - apply visitAll_Ok in Hloop as (_ & _ & _ & Hunits).
    destruct (Hunits _ Hin) as (o & Ho & _ & Hhelpers).
    apply Hhelpers, get_Some_elem_of.
    rewrite (extensionHelpers_created _ _ _ Ho Hk), Hcreate. exact Hget.
Qed.

Lemma onView_registers_created_helpers_witness :
  ∃ store' helpers,
    onView MoreSamples.storeDistinct = Ok store' ∧
    managerStore store' !! "helpers" = Some helpers ∧
    helpers !! "h" = Some (Arrow "a.h").
Proof.
  destruct (onView MoreSamples.storeDistinct) as [store'|] eqn:Hview;
    [|vm_compute in Hview; discriminate].
  destruct (onView_registers_created_helpers MoreSamples.storeDistinct store'
              (Samples.withCreated 1 "a" "h") [("h", Arrow "a.h")] "h"
              (Arrow "a.h"))
    as (helpers & Hmanager & _ & Hh).
  - exact Hview.
  - apply list_elem_of_here.
  - reflexivity.
  - reflexivity.
  - simpl. apply not_elem_of_nil.
  - by exists store', helpers.
Defined.

(** X5.  [onView] throws in two ways only: a TypeError for a decorated helper
    name that is no method of its unit, or the failure of
    [throwIfNameNotUnique] with the code [DUPLICATE_HELPER_NAMES] for a name
    that is in the set it reports. *)
Theorem onView_throws_only store e :
  onView store = Throw e →
  (∃ k extension,
     e = TypeError k ∧ extension ∈ extensions store ∧
     k ∈ Obj.keys (default Obj.object (decoratedHelpers extension)) ∧
     methods extension !! k = None) ∨
  (∃ k seen,
     e = NameNotUnique (isNameUniqueParameter k seen DUPLICATE_HELPER_NAMES) ∧
     k ∈ seen).
Proof.
  intros Hview.
  apply onView_Throw, visitAll_Throw in Hview as (j & ej & Hj & Hcases).
  destruct Hcases as [(k & -> & Hthrow)|(k & seen & -> & Hseen & _)].
  - left. unfold extensionHelpers in Hthrow.
    apply bindDecorated_Throw in Hthrow as (k' & [= <-] & Hk & Hnone).
    exists k, ej. split_and!; try done. by eapply list_elem_of_lookup_2.
  - right. by exists k, seen.
Qed.

Lemma onView_throws_only_witness :
  onView (Samples.storeOf [MoreSamples.ghost]) = Throw (TypeError "missing") ∧
  ((∃ k extension,
      TypeError "missing" = TypeError k ∧
      extension ∈ [MoreSamples.ghost] ∧
      k ∈ Obj.keys (default Obj.object (decoratedHelpers extension)) ∧
      methods extension !! k = None) ∨
   (∃ k seen,
      TypeError "missing" =
        NameNotUnique (isNameUniqueParameter k seen DUPLICATE_HELPER_NAMES) ∧
      k ∈ seen)).
Proof.
  split; [reflexivity|].
  apply (onView_throws_only (Samples.storeOf [MoreSamples.ghost])).
  reflexivity.
Defined.

End SurfaceCharacterised.

Section ActiveCharacterised.
Import HelpersExtension.

Lemma setActive_lookup extension (active : gmap string AnyFunction) k f :
  setActive extension active !! k = Some f →
  active !! k = Some f ∨
  (name extension = k ∧
   (kind extension = MarkKind ∧ f = MarkActive (type extension) ∨
    kind extension = NodeKind ∧ f = NodeActive (type extension))).
Proof.
  unfold setActive, isNodeExtension, isMarkExtension.
  destruct (kind extension); simpl; try by left.
  all: destruct (decide (name extension = k)) as [<-|Hne];
    [rewrite lookup_insert_eq; intros [= <-]; right; naive_solver
    |rewrite lookup_insert_ne by done; by left].
Qed.

Lemma activeOf_sound extensions (active : gmap string AnyFunction) k f :
  activeOf extensions active !! k = Some f →
  active !! k = Some f ∨
  ∃ extension, extension ∈ extensions ∧ name extension = k ∧
    (kind extension = MarkKind ∧ f = MarkActive (type extension) ∨
     kind extension = NodeKind ∧ f = NodeActive (type extension)).
Proof.
  revert active. induction extensions as [|e rest IH]; simpl; intros active H.
  - by left.
  - unfold activeOf in H. simpl in H. fold (activeOf rest (setActive e active)) in H.
    destruct (IH _ H) as [Hk|(e' & Hin & Hrest)].
    + apply setActive_lookup in Hk as [?|[Hname Hkind]]; [by left|].
      right. exists e. split; [apply list_elem_of_here|done].
    + right. exists e'. split; [by apply list_elem_of_further|done].
Qed.

Lemma setActive_dom extension (active : gmap string AnyFunction) :
  dom (setActive extension active) =
    (if isNodeExtension extension || isMarkExtension extension
     then {[ name extension ]} else ∅) ∪ dom active.
Proof.
  unfold setActive.
  destruct (isNodeExtension extension), (isMarkExtension extension); simpl;
    rewrite ?dom_insert_L; set_solver.
Qed.

Lemma activeOf_dom extensions (active : gmap string AnyFunction) :
  dom (activeOf extensions active) =
    GetNodeNameUnion extensions ∪ GetMarkNameUnion extensions ∪ dom active.
Proof.
  revert active. induction extensions as [|e rest IH]; intros active.
  - unfold GetNodeNameUnion, GetMarkNameUnion. simpl. set_solver.
  - unfold activeOf. simpl. fold (activeOf rest (setActive e active)).
    rewrite IH, setActive_dom.
    unfold GetNodeNameUnion, GetMarkNameUnion. rewrite !filter_cons.
    destruct (isNodeExtension e) eqn:Hn, (isMarkExtension e) eqn:Hm; simpl;
      repeat case_decide; try done; simpl; set_solver.
Qed.

(** X4.  After [onView] the keys of the active mapping are the names of the
    Node units and of the Mark units, and every entry is the node or mark
    predicate of a unit of that name and kind; a Plain unit adds nothing. *)
Theorem onView_active_exactly_marks_and_nodes store store' :
  onView store = Ok store' →
  ∃ active,
    managerStore store' !! "active" = Some active ∧
    dom active =
      GetNodeNameUnion (extensions store) ∪
      GetMarkNameUnion (extensions store) ∧
    ∀ k f, active !! k = Some f →
      ∃ extension, extension ∈ extensions store ∧ name extension = k ∧
        (kind extension = MarkKind ∧ f = MarkActive (type extension) ∨
         kind extension = NodeKind ∧ f = NodeActive (type extension)).
Proof.
  intros Hview.
  apply onView_Ok in Hview as (locals & Hloop & _ & Hmanager & _).
  apply visitAll_Ok in Hloop as (_ & _ & Hactive & _). simpl in Hactive.
  exists (active locals). split_and!.
  - rewrite Hmanager, lookup_insert_ne by done. apply lookup_insert_eq.
  - rewrite Hactive, activeOf_dom, dom_empty_L. set_solver.
  - intros k f Hk. rewrite Hactive in Hk.
    by apply activeOf_sound in Hk as [?|?].
Qed.

Lemma onView_active_exactly_marks_and_nodes_witness :
  ∃ store' active,
    onView Samples.storeMarks = Ok store' ∧
    managerStore store' !! "active" = Some active ∧
    dom active = {[ "heading"; "bold" ]}.
Proof.
  destruct (onView Samples.storeMarks) as [store'|] eqn:Hview;
    [|vm_compute in Hview; discriminate].
  destruct (onView_active_exactly_marks_and_nodes _ _ Hview)
    as (active & Hactive & Hdom & _).
  exists store', active. split_and!; [done|done|].
  rewrite Hdom. vm_compute. reflexivity.
Defined.

End ActiveCharacterised.

Section HooksCompose.
Import HelpersExtension.

Lemma insert_pair_again {A} (m : gmap string A) a b x x' y y' :
  a ≠ b →
  <[a := x]> (<[b := y]> (<[a := x']> (<[b := y']> m))) =
  <[a := x]> (<[b := y]> m).
Proof.
  intros Hne. apply map_eq. intros k.
  destruct (decide (k = a)) as [->|Ha]; [by rewrite !lookup_insert_eq|].
  rewrite !(lookup_insert_ne _ a) by done.
  destruct (decide (k = b)) as [->|Hb]; [by rewrite !lookup_insert_eq|].
  by rewrite !lookup_insert_ne by done.
Qed.

(** X6.  Running [onView] again on the store it left gives that store again:
    the mappings are rebuilt from the units, not from what was installed. *)
Theorem onView_idempotent store store' :
  onView store = Ok store' → onView store' = Ok store'.
Proof.
  unfold onView. intros H.
  destruct (visitAll (extensions store) (mkLocals ∅ ∅ ∅)) as [locals|] eqn:E;
    simpl in H; [|done].
  injection H as <-. simpl. rewrite E. simpl.
  unfold setExtensionStore, setStoreKey. simpl. do 2 f_equal.
  - by apply insert_pair_again.
  - by rewrite insert_insert_eq.
Qed.

Lemma onView_idempotent_witness :
  ∃ store', onView Samples.storeMarks = Ok store' ∧ onView store' = Ok store'.
Proof.
  destruct (onView Samples.storeMarks) as [store'|] eqn:Hview;
    [|vm_compute in Hview; discriminate].
  exists store'. split; [done|]. by apply (onView_idempotent Samples.storeMarks).
Defined.

(** X7.  The two hooks do not depend on each other: [onView] after [onCreate]
    throws what [onView] alone throws, and otherwise leaves the store that
    [onCreate] makes of the result of [onView] alone; [onCreate] twice is
    [onCreate] once, the later unit instance being the one bound. *)
Theorem onCreate_onView_independent this this' store :
  onView (onCreate this store) =
    (store' ← onView store; Ok (onCreate this store')) ∧
  onCreate this (onCreate this' store) = onCreate this store.
Proof.
  split.
  - unfold onView. simpl.
    by destruct (visitAll (extensions store) (mkLocals ∅ ∅ ∅)).
  - unfold onCreate, setStringHandler. simpl. f_equal.
    by apply insert_pair_again.
Qed.

End HooksCompose.

Section OrderOfUnits.
Import HelpersExtension.

Lemma visitAll_total extensions :
  (∀ extension, extension ∈ extensions →
     ∃ o, extensionHelpers extension = Ok o) →
  (∀ i j ei ej k,
     i < j → extensions !! i = Some ei → extensions !! j = Some ej →
     contributes ei k → contributes ej k → False) →
  ∃ locals, visitAll extensions (mkLocals ∅ ∅ ∅) = Ok locals.
Proof.
  intros Hok Hdistinct.
  destruct (visitAll extensions (mkLocals ∅ ∅ ∅)) as [locals|e] eqn:Hloop;
    [by exists locals|].
  exfalso. apply visitAll_Throw in Hloop as (j & ej & Hj & Hcases).
  destruct Hcases as [(k & -> & Hthrow)|(k & seen & -> & _ & Hcj & Hearlier)].
  - destruct (Hok ej) as [o Ho]; [by eapply list_elem_of_lookup_2|congruence].
  - destruct Hearlier as [Hk|(i & ei & Hlt & Hi & Hci)].
    + simpl in Hk. set_solver.
    + by eapply (Hdistinct i j).
Qed.

Lemma helpers_from_units A B lA lB k v :
  visitAll A (mkLocals ∅ ∅ ∅) = Ok lA →
  visitAll B (mkLocals ∅ ∅ ∅) = Ok lB →
  (∀ extension, extension ∈ A → extension ∈ B) →
  helpers lA !! k = Some v → helpers lB !! k = Some v.
Proof.
  intros HA HB Hsub Hk.
  destruct (visitAll_Ok_source _ _ _ _ _ HA Hk)
    as [Hempty|(e & o & Hin & Ho & Hkv)]; [done|].
  apply visitAll_Ok in HB as (_ & _ & _ & Hunits).
  destruct (Hunits e (Hsub _ Hin)) as (o' & Ho' & _ & Hhelpers).
  rewrite Ho in Ho'. injection Ho' as <-. by apply Hhelpers.
Qed.

Lemma activeOf_Permutation A B :
  NoDup (name <$> A) → A ≡ₚ B → activeOf A ∅ = activeOf B ∅.
Proof.
  intros Hnd Hperm. apply map_eq. intros k.
  assert (NoDup (name <$> B)) as HndB by by rewrite <- Hperm.
  destruct (decide (k ∈ name <$> A)) as [Hk|Hk].
  - apply list_elem_of_fmap in Hk as (e & -> & Hin).
    rewrite (activeOf_lookup A ∅ e Hnd Hin).
    by rewrite (activeOf_lookup B ∅ e HndB) by by rewrite <- Hperm.
  - rewrite activeOf_other by done.
    by rewrite activeOf_other by by rewrite <- Hperm.
Qed.

(** X8.  The helpers do not depend on the order of the units: when [onView]
    goes through for a list, it goes through for every reordering of it, with
    the same helpers mapping, and, the names of the units being distinct,
    with the same active mapping. *)
Theorem onView_order_independent store1 store1' store2 :
  onView store1 = Ok store1' →
  extensions store2 ≡ₚ extensions store1 →
  ∃ store2',
    onView store2 = Ok store2' ∧
    managerStore store2' !! "helpers" = managerStore store1' !! "helpers" ∧
    (NoDup (name <$> extensions store1) →
     managerStore store2' !! "active" = managerStore store1' !! "active").
Proof.
  intros Hview Hperm.
  apply onView_Ok in Hview as (locals1 & Hloop1 & _ & Hmanager1 & _).
  pose proof (visitAll_Ok _ _ _ Hloop1) as (_ & _ & Hactive1 & Hunits1).
  destruct (visitAll_total (extensions store2)) as [locals2 Hloop2].
  { intros e He. rewrite Hperm in He.
    destruct (Hunits1 _ He) as (o & Ho & _). by exists o. }
  { intros i j ei ej k Hlt Hi Hj Hci Hcj.
    apply Permutation_inj in Hperm as (_ & f & Hinj & Hf).
    rewrite Hf in Hi, Hj.
    assert (f i ≠ f j) as Hne by (intros Heq; apply Hinj in Heq; lia).
    destruct (decide (f i < f j)).
    - by eapply (visitAll_Ok_disjoint _ _ _ (f i) (f j)).
    - eapply (visitAll_Ok_disjoint _ _ _ (f j) (f i)); eauto with lia. }
  pose proof (visitAll_Ok _ _ _ Hloop2) as (_ & _ & Hactive2 & _).
  exists (setExtensionStore "helpers" (helpers locals2)
            (setStoreKey "helpers" (helpers locals2)
               (setStoreKey "active" (active locals2) store2))).
  split_and!.
  - unfold onView. by rewrite Hloop2.
  - rewrite Hmanager1. simpl. rewrite !lookup_insert_eq. f_equal.
    apply map_eq. intros k.
    destruct (helpers locals2 !! k) as [v|] eqn:H2.
    + symmetry. eapply (helpers_from_units _ _ _ _ _ _ Hloop2 Hloop1); [|done].
      intros e. by rewrite Hperm.
    + destruct (helpers locals1 !! k) as [v|] eqn:H1; [|done].
      exfalso. assert (helpers locals2 !! k = Some v) as H2'; [|congruence].
      eapply (helpers_from_units _ _ _ _ _ _ Hloop1 Hloop2); [|done].
      intros e. by rewrite Hperm.
  - intros Hnd. rewrite Hmanager1. simpl.
    rewrite !(lookup_insert_ne _ "helpers" "active") by done.
    rewrite !lookup_insert_eq. f_equal.
    rewrite Hactive1, Hactive2. simpl. symmetry.
    by apply activeOf_Permutation.
Qed.

Lemma onView_order_independent_witness :
  ∃ store1' store2',
    onView MoreSamples.storeDistinct = Ok store1' ∧
    onView MoreSamples.storePermuted = Ok store2' ∧
    managerStore store2' !! "helpers" = managerStore store1' !! "helpers" ∧
    managerStore store2' !! "active" = managerStore store1' !! "active".
Proof.
  destruct (onView MoreSamples.storeDistinct) as [store1'|] eqn:Hview;
    [|vm_compute in Hview; discriminate].
  destruct (onView_order_independent MoreSamples.storeDistinct store1'
              MoreSamples.storePermuted Hview)
    as (store2' & Hview2 & Hhelpers & Hactive).
  - simpl. apply Permutation_cons_append.
  - exists store1', store2'. split_and!; [done|done|done|].
    apply Hactive. vm_compute. repeat constructor; set_solver.
Defined.

End OrderOfUnits.

(** * Further properties of the string handlers *)

Section Delegation.
Import HelpersExtension.

Variable ProsemirrorNode : Type.
Variable htmlToProsemirrorNode : StringHandlerOptions → ProsemirrorNode.
Variable otherHandler : string → StringHandlerOptions → ProsemirrorNode.

Lemma text_handler_loops now this this' :
  stringHandlers now !! "html" = Some (TextToProsemirrorNode this') →
  ∀ depth options,
    callStringHandler ProsemirrorNode htmlToProsemirrorNode otherHandler
      depth now (TextToProsemirrorNode this) options = None.
Proof.
  intros Hhtml depth. revert this.
  induction depth as [|depth IH]; intros this options; [done|].
  simpl. unfold textToProsemirrorNode. rewrite Hhtml. apply IH.
Qed.

(** X9.  The text handler looks the ['html'] handler up when it is called:
    with none registered it throws a TypeError; with [htmlToProsemirrorNode]
    or another handler registered it returns what that one returns for the
    content wrapped in [<pre>]; with a text handler registered as ['html'] it
    does not return, at any depth of calls. *)
Theorem text_handler_delegates_to_current_html this now options :
  let wrapped :=
    mkStringHandlerOptions ("<pre>" ++ content options ++ "</pre>")
      (otherOptions options) in
  match stringHandlers now !! "html" with
  | None =>
      ∀ depth,
        callStringHandler ProsemirrorNode htmlToProsemirrorNode otherHandler
          (S depth) now (TextToProsemirrorNode this) options =
        Some (Throw (TypeError "html"))
  | Some HtmlToProsemirrorNode =>
      ∀ depth,
        callStringHandler ProsemirrorNode htmlToProsemirrorNode otherHandler
          (S (S depth)) now (TextToProsemirrorNode this) options =
        Some (Ok (htmlToProsemirrorNode wrapped))
  | Some (OtherHandler code) =>
      ∀ depth,
        callStringHandler ProsemirrorNode htmlToProsemirrorNode otherHandler
          (S (S depth)) now (TextToProsemirrorNode this) options =
        Some (Ok (otherHandler code wrapped))
  | Some (TextToProsemirrorNode _) =>
      ∀ depth,
        callStringHandler ProsemirrorNode htmlToProsemirrorNode otherHandler
          depth now (TextToProsemirrorNode this) options = None
  end.
Proof.
  intros wrapped.
  destruct (stringHandlers now !! "html") as [[this'| |code]|] eqn:Hhtml.
  - intros depth. by eapply text_handler_loops.
  - intros depth. simpl. unfold textToProsemirrorNode. by rewrite Hhtml.
  - intros depth. simpl. unfold textToProsemirrorNode. by rewrite Hhtml.
  - intros depth. simpl. unfold textToProsemirrorNode. by rewrite Hhtml.
Qed.

End Delegation.

(** * Further properties of the decorators *)

Section ObjSetFacts.
Context {V : Type}.
Implicit Types (o : Obj V) (k : string) (v : V).

Lemma set_set k v v' o : Obj.set k v' (Obj.set k v o) = Obj.set k v' o.
Proof.
  induction o as [|[k0 v0] o IH]; simpl.
  - by rewrite decide_True.
  - destruct (decide (k = k0)) as [->|Hne]; simpl.
    + by rewrite decide_True.
    + rewrite decide_False by done. by rewrite IH.
Qed.

Lemma Forall_set (P : string * V → Prop) k v o :
  P (k, v) → Forall P o → Forall P (Obj.set k v o).
Proof.
  intros Hkv. induction o as [|[k0 v0] o IH]; simpl; intros Ho.
  - by apply Forall_singleton.
  - apply Forall_cons in Ho as [H0 Ho].
    destruct (decide (k = k0)); apply Forall_cons; auto.
Qed.

End ObjSetFacts.

Section DecoratorsCompose.
Import Decorators.



(** X11.  Decorating a method again replaces its record in place: [helper]
    and [keyBinding] twice on one method are [helper] and [keyBinding] once
    with the later options; [command] twice is [command] once with the later
    options, unless these are empty, which leaves the earlier ones. *)
Theorem decorators_last_options_win target propertyKey descriptor :
  (∀ first last,
     helper last (helper first target propertyKey descriptor)
       propertyKey descriptor =
     helper last target propertyKey descriptor) ∧
  (∀ first last,
     keyBinding last (keyBinding first target propertyKey descriptor)
       propertyKey descriptor =
     keyBinding last target propertyKey descriptor) ∧
  (∀ first last,
     command last (command first target propertyKey descriptor)
       propertyKey descriptor =
     if Obj.isEmptyObject (default Obj.object last)
     then command first target propertyKey descriptor
     else command last target propertyKey descriptor).
Proof.
  split_and!; intros first last.
  - unfold helper, withDecoratedHelpers. simpl. by rewrite set_set.
  - unfold keyBinding, withDecoratedKeybindings. simpl. by rewrite set_set.
  - unfold command.
    destruct (Obj.isEmptyObject (default Obj.object last)) eqn:Hlast; [done|].
    destruct (Obj.isEmptyObject (default Obj.object first)); [done|].
    unfold withDecoratedCommands. simpl. by rewrite set_set.
Qed.

(** X12.  The three decorators write three different maps, so decorators of
    different kinds can be applied in either order. *)
Theorem decorators_of_different_kinds_commute
  target k1 k2 d1 d2 helperOptions commandOptions keyBindingOptions :
  helper helperOptions (command commandOptions target k2 d2) k1 d1 =
    command commandOptions (helper helperOptions target k1 d1) k2 d2 ∧
  helper helperOptions (keyBinding keyBindingOptions target k2 d2) k1 d1 =
    keyBinding keyBindingOptions (helper helperOptions target k1 d1) k2 d2 ∧
  command commandOptions (keyBinding keyBindingOptions target k2 d2) k1 d1 =
    keyBinding keyBindingOptions (command commandOptions target k1 d1) k2 d2.
Proof.
  split_and!; unfold command;
    by destruct (Obj.isEmptyObject (default Obj.object commandOptions)).
Qed.

(** X13.  [command] never records an empty options record: a unit whose
    [decoratedCommands] holds no empty record holds none after [command]. *)
Theorem command_keeps_records_nonempty target propertyKey descriptor options :
  Forall (fun record => Obj.isEmptyObject record.2 = false)
    (default Obj.object (decoratedCommands target)) →
  Forall (fun record => Obj.isEmptyObject record.2 = false)
    (default Obj.object
       (decoratedCommands (command options target propertyKey descriptor))).
Proof.
  intros Hall. unfold command.
  destruct (Obj.isEmptyObject (default Obj.object options)) eqn:Hempty;
    [done|].
  simpl. by apply Forall_set.
Qed.

Lemma command_keeps_records_nonempty_witness :
  Forall (fun record => Obj.isEmptyObject record.2 = false)
    (default Obj.object
       (decoratedCommands
          (command (Some [("icon", VString "codeLine")]) Samples.code
             "toggleCode" (mkDescriptor "code#toggleCode")))) ∧
  Forall (fun record : string * Shape => Obj.isEmptyObject record.2 = false)
    (default Obj.object
       (decoratedCommands
          (command None Samples.code "toggleCode"
             (mkDescriptor "code#toggleCode")))).
Proof.
  split; apply command_keeps_records_nonempty; apply Forall_nil_2.
Defined.

End DecoratorsCompose.

Section DecoratedToSurface.
Import HelpersExtension.

(** X14.  A method marked with [helper] is a helper after [onView]: when the
    decorated unit is in the list and [onView] goes through, the helpers
    mapping holds the method under its name, bound to the unit. *)
Theorem decorated_helper_reaches_surface
  store store' target propertyKey options descriptor :
  onView store = Ok store' →
  Decorators.helper options target propertyKey descriptor ∈ extensions store →
  ∃ method helpers,
    methods target !! propertyKey = Some method ∧
    managerStore store' !! "helpers" = Some helpers ∧
    helpers !! propertyKey = Some (Bound method (instance target)).
Proof.
  intros Hview Hin.
  apply onView_Ok in Hview as (locals & Hloop & _ & Hmanager & _).
  apply visitAll_Ok in Hloop as (_ & _ & _ & Hunits).
  destruct (Hunits _ Hin) as (o & Ho & _ & Hhelpers).
  apply extensionHelpers_Ok in Ho as (_ & _ & Hbound).
  destruct (Hbound propertyKey) as (method & Hmethod & Hget).
  { simpl. apply keys_set. by left. }
  exists method, (helpers locals). split_and!; try done.
  - rewrite Hmanager. apply lookup_insert_eq.
  - by apply Hhelpers, get_Some_elem_of.
Qed.

Lemma decorated_helper_reaches_surface_witness :
  ∃ store' helpers,
    onView (Samples.storeOf
              [Decorators.helper None Samples.code "toggleCode"
                 (mkDescriptor "code#toggleCode")]) = Ok store' ∧
    managerStore store' !! "helpers" = Some helpers ∧
    helpers !! "toggleCode" = Some (Bound "code#toggleCode" 9).
Proof.
  destruct (onView _) as [store'|] eqn:Hview;
    [|vm_compute in Hview; discriminate].
  destruct (decorated_helper_reaches_surface _ store' Samples.code "toggleCode"
              None (mkDescriptor "code#toggleCode") Hview)
    as (method & helpers & Hmethod & Hmanager & Hhelper).
  - apply list_elem_of_here.
  - exists store', helpers. split_and!; [done|done|].
    vm_compute in Hmethod. by injection Hmethod as <-.
Defined.

End DecoratedToSurface.

(** * Further properties of the command type maps *)

Section ChainTypes.
Import Types.

(** X15.  The mapped types keep the command names: the direct and the
    chained mapping have a member for each command and for nothing else, and
    the chain surface has these and [run]. *)
Theorem command_maps_keep_names (RawCommands : gmap string FunctionType) :
  dom (MapToUnchainedCommand RawCommands) = dom RawCommands ∧
  dom (MapToChainedCommand RawCommands) = dom RawCommands ∧
  dom (ChainedFromExtensions RawCommands) = {[ "run" ]} ∪ dom RawCommands.
Proof.
  unfold MapToUnchainedCommand, MapToChainedCommand, ChainedFromExtensions,
    intersection, ChainedCommandRunParameter.
  split_and!.
  - apply dom_fmap_L.
  - apply dom_fmap_L.
  - apply set_eq. intros k.
    rewrite elem_of_dom, lookup_union_with, elem_of_union, elem_of_singleton.
    rewrite <- (dom_fmap_L
      (fun Command : FunctionType =>
         if extendsNonChainable (ReturnType Command)
         then TVoid else TFunction (Parameters Command) TAny) RawCommands).
    rewrite <- (dom_fmap_L
      (fun member : TsType =>
         match member with
         | TFunction parameters _ =>
             TFunction parameters (TRef "ChainedFromExtensions")
         | _ => TNever
         end)), elem_of_dom.
    destruct (decide (k = "run")) as [->|Hne].
    + rewrite lookup_singleton_eq. split; [by left|intros _].
      by destruct (_ !! "run"); simpl.
    + rewrite lookup_singleton_ne by done.
      destruct (_ !! k) eqn:Hk; simpl; rewrite ?Hk; split;
        try naive_solver; intros [|[]]; done.
Qed.

(** X16.  A command that returns a plain command function, and is not named
    [run], is on the chain surface a function of the command's parameters
    that returns the chain surface. *)
Theorem chainable_returns_chain
  (RawCommands : gmap string FunctionType) Command F :
  RawCommands !! Command = Some F →
  ReturnType F = commandReturns None →
  Command ≠ "run" →
  ChainedFromExtensions RawCommands !! Command =
    Some (TFunction (Parameters F) (TRef "ChainedFromExtensions")) ∧
  callable (TFunction (Parameters F) (TRef "ChainedFromExtensions")) = true.
Proof.
  intros HF Hreturns Hne. split; [|done].
  unfold ChainedFromExtensions, intersection, ChainedCommandRunParameter,
    MapToChainedCommand.
  rewrite lookup_union_with, lookup_singleton_ne by done.
  rewrite !lookup_fmap, HF. simpl. by rewrite Hreturns.
Qed.

Lemma chainable_returns_chain_witness :
  ChainedFromExtensions Samples.commands !! "toggleBold" =
    Some (TFunction [] (TRef "ChainedFromExtensions")).
Proof.
  apply (chainable_returns_chain Samples.commands "toggleBold"
           (mkFunctionType [] CommandFunction)).
  - vm_compute. reflexivity.
  - reflexivity.
  - discriminate.
Defined.

End ChainTypes.


(** * The input rules of ItalicExtension *)

Section ItalicRules.
Import ItalicExtension.

Lemma prefix_nil s : String.prefix "" s = true.
Proof. by destruct s. Qed.

Lemma prefix_char d c s :
  String.prefix (String d "") (String c s) = bool_decide (d = c).
Proof.
  simpl. rewrite prefix_nil.
  destruct (Ascii.ascii_dec d c);
    [by rewrite bool_decide_eq_true_2 | by rewrite bool_decide_eq_false_2].
Qed.

Lemma trim_to_delimiter d s :
  fullMatchOf d s →
  let trimmed :=
    if negb (String.prefix (String d EmptyString) s) then slice1 s else s in
  String.prefix (String d EmptyString) trimmed = true ∧
  fullMatchOf d trimmed ∧
  (if negb (String.prefix (String d EmptyString) s) then 1 else 0)
    + String.length trimmed = String.length s.
Proof.
  intros (before & body & -> & Hbefore & Hbody & Hnone).
  destruct Hbefore as [->|(c & Hc & ->)].
  - change ("" +:+ String d (body +:+ String d ""))
      with (String d (body +:+ String d "")).
    rewrite prefix_char, bool_decide_eq_true_2 by done. cbn [negb].
    rewrite prefix_char, bool_decide_eq_true_2 by done.
    split_and!; [done| |done].
    exists EmptyString, body. by split_and!; [|left| |].
  - change (String c "" +:+ String d (body +:+ String d ""))
      with (String c (String d (body +:+ String d ""))).
    rewrite prefix_char, bool_decide_eq_false_2 by done. cbn [negb slice1].
    rewrite prefix_char, bool_decide_eq_true_2 by done.
    split_and!; [done| |done].
    exists EmptyString, body. by split_and!; [|left| |].
Qed.

(** X17.  On a match of the rule's expression, [updateCaptured] leaves a
    match that starts at the delimiter: the character before it, if one was
    matched, is dropped and [start] moves by one, so that the match still
    ends where it ended; a match that starts with the delimiter is left as it
    is.  This holds for the [*] rule and for the [_] rule. *)
Theorem updateCaptured_trims_to_delimiter captured :
  (fullMatchOf "*"%char (fullMatch captured) →
   let trimmed := withUpdate captured (updateCapturedStar captured) in
   String.prefix "*" (fullMatch trimmed) = true ∧
   fullMatchOf "*"%char (fullMatch trimmed) ∧
   start trimmed + String.length (fullMatch trimmed) =
     start captured + String.length (fullMatch captured)) ∧
  (fullMatchOf "_"%char (fullMatch captured) →
   let trimmed := withUpdate captured (updateCapturedUnderscore captured) in
   String.prefix "_" (fullMatch trimmed) = true ∧
   fullMatchOf "_"%char (fullMatch trimmed) ∧
   start trimmed + String.length (fullMatch trimmed) =
     start captured + String.length (fullMatch captured)).
Proof.
  split; intros Hmatch; apply trim_to_delimiter in Hmatch;
    unfold updateCapturedStar, updateCapturedUnderscore, withUpdate;
    cbv zeta in *; revert Hmatch.
  - destruct (negb (String.prefix "*" (fullMatch captured)));
      cbn [fullMatch start updatedFullMatch updatedStart default];
      intros (Hp & Hm & Hlen); unfold id; split_and!; try done; lia.
  - destruct (negb (String.prefix "_" (fullMatch captured)));
      cbn [fullMatch start updatedFullMatch updatedStart default];
      intros (Hp & Hm & Hlen); unfold id; split_and!; try done; lia.
Qed.

Lemma updateCaptured_trims_to_delimiter_witness :
  withUpdate (mkCaptured " *hi*" 4) (updateCapturedStar (mkCaptured " *hi*" 4))
    = mkCaptured "*hi*" 5 ∧
  fullMatchOf "*"%char "*hi*" ∧
  withUpdate (mkCaptured "_hi_" 0)
    (updateCapturedUnderscore (mkCaptured "_hi_" 0))
    = mkCaptured "_hi_" 0 ∧
  fullMatchOf "_"%char "_hi_".
Proof.
  destruct (updateCaptured_trims_to_delimiter (mkCaptured " *hi*" 4))
    as [Hstar _].
  destruct (updateCaptured_trims_to_delimiter (mkCaptured "_hi_" 0))
    as [_ Hunderscore].
  split_and!.
  - reflexivity.
  - apply Hstar. exists " ", "hi". split_and!; [done| |done|].
    + right. by exists " "%char.
    + intros c Hc. simpl in Hc. set_solver.
  - reflexivity.
  - apply Hunderscore. exists "", "hi". split_and!; [done|by left|done|].
    intros c Hc. simpl in Hc. set_solver.
Defined.

End ItalicRules.

(** * The helpers of the helpers unit *)

Section BuiltinHelpers.
Import HelpersExtension.

Lemma Builtin_decorated id :
  decoratedHelpers (Builtin.HelpersExtension id) =
    Some ((fun method => (method, [])) <$> Builtin.helperMethods) ∧
  instance (Builtin.HelpersExtension id) = id ∧
  createHelpers (Builtin.HelpersExtension id) = None.
Proof. split_and!; vm_compute; reflexivity. Qed.

Lemma Builtin_methods id method :
  method ∈ Builtin.helperMethods →
  methods (Builtin.HelpersExtension id) !! method =
    Some (Builtin.methodCode method).
Proof.
  unfold Builtin.helperMethods. rewrite !elem_of_cons, elem_of_nil.
  intros [->|[->|[->|[->|[->|[->|[]]]]]]]; vm_compute; reflexivity.
Qed.

(** X18.  Whenever the helpers unit is among the units and [onView] goes
    through, each of its six methods marked [@helper()] is in the helpers
    mapping under its own name, bound to the helpers unit; the unit adds no
    other helper. *)
Theorem builtin_helpers_registered store store' id :
  onView store = Ok store' →
  Builtin.HelpersExtension id ∈ extensions store →
  ∃ helpers,
    managerStore store' !! "helpers" = Some helpers ∧
    (∀ method,
       method ∈ Builtin.helperMethods →
       helpers !! method = Some (Bound (Builtin.methodCode method) id)) ∧
    (∀ k, contributes (Builtin.HelpersExtension id) k ↔
          k ∈ Builtin.helperMethods).
Proof.
  intros Hview Hin.
  apply onView_Ok in Hview as (locals & Hloop & _ & Hmanager & _).
  exists (helpers locals). split_and!.
  - rewrite Hmanager. apply lookup_insert_eq.
  - intros method Hmethod.
    apply visitAll_Ok in Hloop as (_ & _ & _ & Hunits).
    destruct (Hunits _ Hin) as (o & Ho & _ & Hhelpers).
    apply extensionHelpers_Ok in Ho as (_ & _ & Hbound).
    destruct (Builtin_decorated id) as (Hdecorated & Hid & _).
    destruct (Hbound method) as (code & Hcode & Hget).
    { rewrite Hdecorated. exact Hmethod. }
    rewrite Builtin_methods in Hcode by done. injection Hcode as <-.
    rewrite Hid in Hget. by apply Hhelpers, get_Some_elem_of.
  - intros k. destruct (Builtin_decorated id) as (Hdecorated & _ & Hcreate).
    unfold contributes. rewrite Hdecorated, Hcreate.
    change (Obj.keys (default Obj.object
              (Some ((fun method : string => (method, @nil (string * Value)))
                       <$> Builtin.helperMethods))))
      with Builtin.helperMethods.
    simpl. rewrite elem_of_nil. naive_solver.
Qed.

Lemma builtin_helpers_registered_witness :
  ∃ store' helpers,
    onView (Samples.storeOf [Builtin.HelpersExtension 0; Samples.bold])
      = Ok store' ∧
    managerStore store' !! "helpers" = Some helpers ∧
    helpers !! "getJSON" = Some (Bound "HelpersExtension#getJSON" 0).
Proof.
  destruct (onView _) as [store'|] eqn:Hview;
    [|vm_compute in Hview; discriminate].
  destruct (builtin_helpers_registered _ store' 0 Hview)
    as (helpers & Hmanager & Hmethods & _).
  - apply list_elem_of_here.
  - exists store', helpers. split_and!; [done|done|].
    apply (Hmethods "getJSON"). unfold Builtin.helperMethods. set_solver.
Defined.

End BuiltinHelpers.

(** * Units without helpers, units of one name *)

Section NeutralUnits.
Import HelpersExtension.

Lemma visitAll_app l1 l2 locals :
  visitAll (l1 ++ l2)%list locals =
    (locals' ← visitAll l1 locals; visitAll l2 locals').
Proof.
  revert locals. induction l1 as [|e l1 IH]; simpl; intros locals; [done|].
  destruct (visit e locals) as [locals1|]; simpl; [apply IH|done].
Qed.

Lemma visit_active_irrelevant e h a a' n :
  visit e (mkLocals h a' n) =
    match visit e (mkLocals h a n) with
    | Ok r => Ok (mkLocals (helpers r) (setActive e a') (names r))
    | Throw x => Throw x
    end.
Proof.
  unfold visit. simpl.
  destruct (extensionHelpers e) as [o|]; simpl; [|done].
  destruct (Obj.isEmptyObject o); [done|].
  by destruct (register (Obj.entries o) n h) as [[ns hs]|].
Qed.

Lemma visitAll_active_irrelevant l h a a' n :
  visitAll l (mkLocals h a' n) =
    match visitAll l (mkLocals h a n) with
    | Ok r => Ok (mkLocals (helpers r) (activeOf l a') (names r))
    | Throw x => Throw x
    end.
Proof.
  revert h a a' n. induction l as [|e l IH]; simpl; intros h a a' n; [done|].
  rewrite (visit_active_irrelevant e h a a' n).
  destruct (visit e (mkLocals h a n)) as [[hr ar nr]|]; simpl; [|done].
  rewrite (IH hr ar (setActive e a') nr).
  by destruct (visitAll l (mkLocals hr ar nr)).
Qed.

Lemma visit_neutral e locals :
  (∀ k, ¬ contributes e k) →
  visit e locals =
    Ok (mkLocals (helpers locals) (setActive e (active locals)) (names locals)).
Proof.
  intros Hnone. unfold visit, extensionHelpers.
  assert (default [] (createHelpers e) = []) as Hcreated.
  { destruct (default [] (createHelpers e)) as [|[k v] props] eqn:E; [done|].
    destruct (Hnone k). left. rewrite E. apply list_elem_of_here. }
  assert (default Obj.object (decoratedHelpers e) = []) as Hdecorated.
  { destruct (default Obj.object (decoratedHelpers e)) as [|[k v] d] eqn:E;
      [done|].
    destruct (Hnone k). right. rewrite E. apply list_elem_of_here. }
  rewrite Hdecorated. simpl.
  destruct (createHelpers e) as [props|]; simpl in *; [|done].
  by rewrite Hcreated.
Qed.

(** X19.  A unit that contributes no helper (no [createHelpers()] entry, no
    decorated helper) does not count for the helpers: with the unit put
    anywhere into a list, [onView] throws what it throws without it, or goes
    through with the same helpers mapping. *)
Theorem unit_without_helpers_is_neutral store store2 before extension after :
  extensions store = (before ++ extension :: after)%list →
  extensions store2 = (before ++ after)%list →
  (∀ k, ¬ contributes extension k) →
  match onView store, onView store2 with
  | Ok store', Ok store2' =>
      managerStore store' !! "helpers" = managerStore store2' !! "helpers" ∧
      extensionStore store' !! "helpers" = extensionStore store2' !! "helpers"
  | Throw e, Throw e2 => e = e2
  | _, _ => False
  end.
Proof.
  intros Hexts Hexts2 Hnone. unfold onView. rewrite Hexts, Hexts2.
  rewrite !visitAll_app. simpl.
  destruct (visitAll before (mkLocals ∅ ∅ ∅)) as [[h a n]|]; simpl; [|done].
  rewrite (visit_neutral _ _ Hnone). simpl.
  rewrite (visitAll_active_irrelevant after h a (setActive extension a) n).
  destruct (visitAll after (mkLocals h a n)) as [r|]; simpl; [|done].
  by rewrite !lookup_insert_eq.
Qed.

Lemma unit_without_helpers_is_neutral_witness :
  ∃ store' store2',
    onView (Samples.storeOf
              [Samples.both 5 "u" "h"; MoreSamples.UnderlineExtension;
               Samples.bold]) = Ok store' ∧
    onView (Samples.storeOf [Samples.both 5 "u" "h"; Samples.bold])
      = Ok store2' ∧
    managerStore store' !! "helpers" = managerStore store2' !! "helpers".
Proof.
  pose proof (unit_without_helpers_is_neutral
                (Samples.storeOf
                   [Samples.both 5 "u" "h"; MoreSamples.UnderlineExtension;
                    Samples.bold])
                (Samples.storeOf [Samples.both 5 "u" "h"; Samples.bold])
                [Samples.both 5 "u" "h"] MoreSamples.UnderlineExtension
                [Samples.bold]) as H.
  destruct (onView (Samples.storeOf [_; _; _])) as [store'|] eqn:Hview;
    [|vm_compute in Hview; discriminate].
  destruct (onView (Samples.storeOf [_; _])) as [store2'|] eqn:Hview2;
    [|vm_compute in Hview2; discriminate].
  exists store', store2'. split_and!; [done|done|].
  apply H.
  - reflexivity.
  - reflexivity.
  - intros k [Hk|Hk]; simpl in Hk; by apply elem_of_nil in Hk.
Defined.

(** X20.  The active mapping is written without a check of the names: of
    several Mark or Node units of one name, the one that comes last in the
    list has its predicate under that name. *)
Theorem onView_active_last_unit_wins store store' before extension after :
  onView store = Ok store' →
  extensions store = (before ++ extension :: after)%list →
  name extension ∉ name <$> after →
  kind extension ≠ PlainKind →
  ∃ active,
    managerStore store' !! "active" = Some active ∧
    active !! name extension =
      Some (match kind extension with
            | NodeKind => NodeActive (type extension)
            | _ => MarkActive (type extension)
            end).
Proof.
  intros Hview Hexts Hafter Hkind.
  apply onView_Ok in Hview as (locals & Hloop & _ & Hmanager & _).
  apply visitAll_Ok in Hloop as (_ & _ & Hactive & _). simpl in Hactive.
  exists (active locals). split.
  - rewrite Hmanager, lookup_insert_ne by done. apply lookup_insert_eq.
  - rewrite Hactive, Hexts. unfold activeOf. rewrite foldl_app. simpl.
    fold (activeOf before ∅).
    fold (activeOf after (setActive extension (activeOf before ∅))).
    rewrite activeOf_other by done.
    unfold setActive, isNodeExtension, isMarkExtension.
    destruct (kind extension); [done| |]; by rewrite lookup_insert_eq.
Qed.

Lemma onView_active_last_unit_wins_witness :
  ∃ store' active,
    onView (Samples.storeOf [MoreSamples.markX; MoreSamples.nodeX])
      = Ok store' ∧
    managerStore store' !! "active" = Some active ∧
    active !! "x" = Some (NodeActive "xNode").
Proof.
  destruct (onView _) as [store'|] eqn:Hview;
    [|vm_compute in Hview; discriminate].
  destruct (onView_active_last_unit_wins _ store' [MoreSamples.markX]
              MoreSamples.nodeX [] Hview)
    as (active & Hactive & Hx).
  - reflexivity.
  - apply not_elem_of_nil.
  - discriminate.
  - by exists store', active.
Defined.

End NeutralUnits.
